(** * Hashtable.h: a separate-chaining hashtable and its cross-bucket iterator

    A shallow embedding of [src/Hashtable/Hashtable.h].  The class template
    [hashtable<Key, T, Hasher, KeyEqual>] keeps a [std::vector] of buckets, every
    bucket a [std::list] of key/value pairs, and two [size_t] counters.  The
    nested class [iterator] is a bucket index together with a [std::list]
    iterator into one of the chains.

    Conventions of the embedding:
    - [size_t] is the 64-bit unsigned type and [int] the 32-bit signed type of
      the usual LP64 platform; [size_t] values live in [N] and every
      [size_t] operation that can wrap is written with its wrap-around
      ([count_++], [count_--], [bucket_count() - 1]); a bucket index that
      [at] has just accepted is below the size of the vector, so its
      increment cannot wrap and is written as [index + 1];
    - a member function that reads or writes the table takes the table as an
      argument and returns the new table where it changes it;
    - a call ends in one of three ways, see [result]. *)

From stdpp Require Import base numbers option list.
From Stdlib Require Import QArith.

Local Open Scope N_scope.

(** ** Outcomes *)

(** How a call ends: it returns a value, it leaves through the
    [std::out_of_range] thrown by [std::vector::at], or it does something for
    which the language defines no behaviour (a division by zero, an unchecked
    access outside a vector, the use of a past-the-end or of an invalidated
    list iterator, a signed overflow). *)
Inductive result (A : Type) : Type :=
| Ok (a : A)
| OutOfRange
| Undefined.

Arguments Ok {A} a.
Arguments OutOfRange {A}.
Arguments Undefined {A}.

#[global] Instance result_ret : MRet result := λ A a, Ok a.

#[global] Instance result_bind : MBind result := λ A B f m,
  match m with
  | Ok a => f a
  | OutOfRange => OutOfRange
  | Undefined => Undefined
  end.

#[global] Instance result_fmap : FMap result := λ A B f m,
  match m with
  | Ok a => Ok (f a)
  | OutOfRange => OutOfRange
  | Undefined => Undefined
  end.

(** ** Machine integers *)

(** The number of values of a [size_t]. *)
Definition SIZE_MOD : N := 2 ^ 64.

(** The largest [int]. *)
Definition INT_MAX : N := 2 ^ 31 - 1.

(** [n + 1] on [size_t]. *)
Definition size_succ (n : N) : N := (n + 1) mod SIZE_MOD.

(** [n - 1] on [size_t]: zero wraps to the largest value. *)
Definition size_pred (n : N) : N := (n + (SIZE_MOD - 1)) mod SIZE_MOD.

(** ** The template parameters *)

(** [Hasher]: its call operator gives a [size_t]. *)
Class Hasher (Key : Type) := h_ : Key → N.

(** [KeyEqual]: its call operator gives a [bool]. *)
Class KeyEqual (Key : Type) := equal_to_ : Key → Key → bool.

#[global] Hint Mode Hasher ! : typeclass_instances.
#[global] Hint Mode KeyEqual ! : typeclass_instances.

(** The default parameters at [Key = size_t]: [std::equal_to] is [==], and
    [std::hash] of an integer is the integer itself in the common standard
    libraries. *)
#[global] Instance N_hasher : Hasher N := λ k, k.
#[global] Instance N_key_equal : KeyEqual N := N.eqb.

(** ** Data *)

(** A [std::list] iterator is a pointer to a node of one list or to that
    list's own past-the-end sentinel.  While the table is not changed a node
    is known by the bucket whose chain it is in and its offset from the head of
    that chain, and a sentinel by its bucket; two list iterators are the same
    pointer exactly when they are the same value of this type. *)
Inductive bucket_iterator : Type :=
| Node (bucket : N) (offset : nat)
| End (bucket : N).

#[global] Instance bucket_iterator_eq_dec : EqDecision bucket_iterator.
Proof. solve_decision. Defined.

(** [iterator]: the reference [t_] is the table handed to each operation. *)
Record iterator : Type := Iterator { index_ : N; entry_ : bucket_iterator }.

(** [const_iterator] has the same members. *)
Record const_iterator : Type :=
  ConstIterator { cindex_ : N; centry_ : bucket_iterator }.

(** The typedefs [hash_entry_type], [bucket_type] and [index_table]. *)
Abbreviation hash_entry_type Key T := (Key * T)%type (only parsing).
Abbreviation bucket_type Key T := (list (hash_entry_type Key T)) (only parsing).
Abbreviation index_table Key T := (list (bucket_type Key T)) (only parsing).

Record hashtable (Key T : Type) : Type := Hashtable {
  table_ : index_table Key T;
  bucket_count_ : N;
  count_ : N
}.

Arguments Hashtable {Key T} table_ bucket_count_ count_.
Arguments table_ {Key T} h.
Arguments bucket_count_ {Key T} h.
Arguments count_ {Key T} h.

Section hashtable.
Context {Key T : Type} `{!Hasher Key, !KeyEqual Key}.

#[local] Abbreviation hashtable := (hashtable Key T).
#[local] Abbreviation hash_entry_type := (hash_entry_type Key T).
#[local] Abbreviation bucket_type := (bucket_type Key T).
#[local] Abbreviation index_table := (index_table Key T).

(** [hashtable(const size_t buckets)]: the loop counter is an [int] compared
    with a [size_t], so it counts up to [buckets] only when that is at most
    [INT_MAX]; beyond it the counter overflows. *)
Definition hashtable_init (buckets : N) : result hashtable :=
  if buckets <=? INT_MAX
  then Ok (Hashtable (replicate (N.to_nat buckets) []) buckets 0)
  else Undefined.

Definition bucket_count (t : hashtable) : N := bucket_count_ t.

Definition count (t : hashtable) : N := count_ t.

(** [at(size_t index)]: [table_.at(index)], bounds-checked. *)
Definition at_ (t : hashtable) (index : N) : result bucket_type :=
  if index <? N.of_nat (length (table_ t))
  then from_option Ok OutOfRange (table_ t !! N.to_nat index)
  else OutOfRange.

(** [table_[index]]: not bounds-checked. *)
Definition bucket_ref (t : hashtable) (index : N) : result bucket_type :=
  if index <? N.of_nat (length (table_ t))
  then from_option Ok Undefined (table_ t !! N.to_nat index)
  else Undefined.

(** [size_t index = h_(key); index %= bucket_count_;] *)
Definition index_of (t : hashtable) (key : Key) : result N :=
  if bucket_count_ t =? 0 then Undefined else Ok (h_ key mod bucket_count_ t).

(** [b.begin()] of the chain [b] of bucket [index]: the sentinel when the
    chain is empty. *)
Definition bucket_begin (index : N) (b : bucket_type) : bucket_iterator :=
  match b with
  | [] => End index
  | _ :: _ => Node index 0
  end.

(** [b.end()] of the chain of bucket [index]. *)
Definition bucket_end (index : N) : bucket_iterator := End index.

(** [++entry_] on a list iterator: the next node of the same chain, or the
    chain's sentinel after its last node. *)
Definition bucket_next (t : hashtable) (e : bucket_iterator)
  : result bucket_iterator :=
  match e with
  | Node i j =>
      b ← bucket_ref t i;
      if decide (S j < length b)%nat then Ok (Node i (S j)) else
      if decide (S j = length b) then Ok (End i) else Undefined
  | End _ => Undefined
  end.

(** [*entry_]. *)
Definition bucket_deref (t : hashtable) (e : bucket_iterator)
  : result hash_entry_type :=
  match e with
  | Node i j => b ← bucket_ref t i; from_option Ok Undefined (b !! j)
  | End _ => Undefined
  end.

(** The scan shared by [insert], [find], [erase] and [contains_key]:
    [for (it = b->begin(); it != b->end(); it++) if (p(it)) ...], giving the
    offset [j] of the first entry that satisfies [p]. *)
Fixpoint chain_scan (p : hash_entry_type → bool) (b : bucket_type) (j : nat)
  : option nat :=
  match b with
  | [] => None
  | e :: b' => if p e then Some j else chain_scan p b' (S j)
  end.

(** [end()]: the loop [while (at(index).empty()) { if (index == 0) return ...;
    index--; }], from [index] downwards. *)
Fixpoint end_loop (t : hashtable) (index : nat) : result iterator :=
  b ← at_ t (N.of_nat index);
  match b with
  | [] =>
      match index with
      | O =>
          _ ← at_ t (size_pred (bucket_count t));
          Ok (Iterator 0 (bucket_end (size_pred (bucket_count t))))
      | S index' => end_loop t index'
      end
  | _ :: _ => Ok (Iterator (N.of_nat index) (bucket_end (N.of_nat index)))
  end.

(** [end()].  The first [at(index)] is checked before the loop is entered,
    which is what the loop itself does first. *)
Definition end_ (t : hashtable) : result iterator :=
  let index := size_pred (bucket_count t) in
  if index <? N.of_nat (length (table_ t))
  then end_loop t (N.to_nat index)
  else OutOfRange.

(** [begin()]: the loop [while (at(index).empty()) { if (index ==
    bucket_count() - 1) return ...; index++; }]; [rest] is the part of
    [table_] from [index] on, so [at(index)] is its head and throws when it is
    empty. *)
Fixpoint begin_loop (t : hashtable) (index : N) (rest : index_table)
  : result iterator :=
  match rest with
  | [] => OutOfRange
  | [] :: rest' =>
      if index =? size_pred (bucket_count t)
      then
        _ ← at_ t (size_pred (bucket_count t));
        Ok (Iterator index (bucket_end (size_pred (bucket_count t))))
      else begin_loop t (index + 1) rest'
  | (_ :: _) as b :: _ => Ok (Iterator index (bucket_begin index b))
  end.

Definition begin (t : hashtable) : result iterator :=
  begin_loop t 0 (table_ t).

(** [insert(key, obj)]: the table afterwards and the iterator returned. *)
Definition insert (key : Key) (obj : T) (t : hashtable)
  : result (hashtable * iterator) :=
  index ← index_of t key;
  b ← bucket_ref t index;
  match chain_scan (λ e, equal_to_ e.1 key) b 0 with
  | Some j => Ok (t, Iterator index (Node index j))
  | None =>
      let b' := b ++ [(key, obj)] in
      let t' := Hashtable (<[N.to_nat index := b']> (table_ t))
                  (bucket_count_ t) (size_succ (count_ t)) in
      Ok (t', Iterator index (Node index (length b)))
  end.

(** [find(key)]. *)
Definition find (key : Key) (t : hashtable) : result iterator :=
  index ← index_of t key;
  b ← bucket_ref t index;
  match chain_scan (λ e, equal_to_ key e.1) b 0 with
  | Some j => Ok (Iterator index (Node index j))
  | None => end_ t
  end.

(** The loop of [erase(key)] over the chain [b].  At the first entry whose
    key compares equal the body runs [b->erase(it)], which unlinks and frees
    the node [it] points to, and [count_--]; the loop does not leave there, and
    its header goes on with [it++] on the iterator that [std::list::erase] has
    just invalidated.  The language defines no behaviour for that increment. *)
Fixpoint erase_loop (key : Key) (b : bucket_type) : result unit :=
  match b with
  | [] => Ok ()
  | e :: b' => if equal_to_ key e.1 then Undefined else erase_loop key b'
  end.

(** [erase(key)]. *)
Definition erase (key : Key) (t : hashtable) : result hashtable :=
  index ← index_of t key;
  b ← bucket_ref t index;
  _ ← erase_loop key b;
  Ok t.

(** What the body of that loop has written when the increment is reached,
    for the match at offset [j] of the chain [b] of bucket [index]:
    [b->erase(it); count_--;]. *)
Definition erase_entry (t : hashtable) (index : N) (b : bucket_type) (j : nat)
  : hashtable :=
  Hashtable (<[N.to_nat index := delete j b]> (table_ t))
    (bucket_count_ t) (size_pred (count_ t)).

(** [contains_key(key)]. *)
Definition contains_key (key : Key) (t : hashtable) : result bool :=
  index ← index_of t key;
  b ← bucket_ref t index;
  match chain_scan (λ e, equal_to_ key e.1) b 0 with
  | Some _ => Ok true
  | None => Ok false
  end.

(** [load_factor()]: [count_ / bucket_count_] divides two [size_t], and the
    quotient is then converted to the [double] that is returned (the
    conversion is exact below [2 ^ 53]). *)
Definition load_factor (t : hashtable) : result Q :=
  if bucket_count_ t =? 0 then Undefined
  else Ok (inject_Z (Z.of_N (count_ t / bucket_count_ t))).

(** [iterator::operator==] and [const_iterator::operator==]:
    [entry_ == rhs.entry_]. *)
Definition iterator_eq (a b : iterator) : bool :=
  bool_decide (entry_ a = entry_ b).

Definition const_iterator_eq (a b : const_iterator) : bool :=
  bool_decide (centry_ a = centry_ b).

(** [iterator::operator*]. *)
Definition deref (t : hashtable) (it : iterator) : result hash_entry_type :=
  bucket_deref t (entry_ it).

(** The [do { index_++; if (index_ == t_.bucket_count()) return t_.end(); }
    while (t_.at(index_).empty());] of [operator++], entered with [index_]
    already incremented to [index]; [rest] is the part of [table_] from
    [index] on.  [None] stands for the [return t_.end()], [Some i] for leaving
    the loop at the non-empty bucket [i]. *)
Fixpoint next_bucket (t : hashtable) (index : N) (rest : index_table)
  : result (option N) :=
  if index =? bucket_count t then Ok None else
  match rest with
  | [] => OutOfRange
  | [] :: rest' => next_bucket t (index + 1) rest'
  | (_ :: _) :: _ => Ok (Some index)
  end.

(** The rest of [operator++] once the search for a bucket starts: [entry] is
    the [entry_] the iterator has at that point.  The result is the
    iterator object after the call and the iterator returned by it. *)
Definition advance_bucket (t : hashtable) (index : N) (entry : bucket_iterator)
  : result (iterator * iterator) :=
  found ← next_bucket t (index + 1) (drop (S (N.to_nat index)) (table_ t));
  match found with
  | None => e ← end_ t; Ok (Iterator (bucket_count t) entry, e)
  | Some i =>
      b ← at_ t i;
      let it := Iterator i (bucket_begin i b) in Ok (it, it)
  end.

(** [iterator::operator++()] (prefix): the iterator object after the call and
    the iterator returned.  They differ when the call leaves through
    [return t_.end()]. *)
Definition operator_inc (t : hashtable) (it : iterator)
  : result (iterator * iterator) :=
  b ← at_ t (index_ it);
  match b with
  | [] => advance_bucket t (index_ it) (entry_ it)
  | _ :: _ =>
      e ← bucket_next t (entry_ it);
      if decide (e ≠ bucket_end (index_ it))
      then let it' := Iterator (index_ it) e in Ok (it', it')
      else advance_bucket t (index_ it) e
  end.

(** The client loop [for (it = t.begin(); it != t.end(); ++it) visit(it)],
    recording at every visit the chain position of [it] and the entry [*it].
    The loop goes on with the object that [operator++] has advanced, or, when
    [by_value] is set, with the iterator that [operator++] returned
    ([it = ++it]).  [fuel] bounds the number of visits; [None] is the loop
    still running when the fuel is spent. *)
Fixpoint traverse_from (by_value : bool) (t : hashtable) (fuel : nat)
    (it : iterator)
  : option (result (list (bucket_iterator * hash_entry_type))) :=
  match end_ t with
  | Ok e =>
      if iterator_eq it e then Some (Ok []) else
      match fuel with
      | O => None
      | S fuel' =>
          match deref t it with
          | Ok x =>
              match operator_inc t it with
              | Ok (it', returned) =>
                  let next := if by_value then returned else it' in
                  match traverse_from by_value t fuel' next with
                  | Some (Ok xs) => Some (Ok ((entry_ it, x) :: xs))
                  | r => r
                  end
              | OutOfRange => Some OutOfRange
              | Undefined => Some Undefined
              end
          | OutOfRange => Some OutOfRange
          | Undefined => Some Undefined
          end
      end
  | OutOfRange => Some OutOfRange
  | Undefined => Some Undefined
  end.

Definition traverse (by_value : bool) (t : hashtable) (fuel : nat)
  : option (result (list (bucket_iterator * hash_entry_type))) :=
  match begin t with
  | Ok it => traverse_from by_value t fuel it
  | OutOfRange => Some OutOfRange
  | Undefined => Some Undefined
  end.

(** ** Sequences of operations *)

Inductive operation : Type :=
| Insert (key : Key) (obj : T)
| Erase (key : Key).

Definition apply_operation (o : operation) (t : hashtable)
  : result hashtable :=
  match o with
  | Insert key obj => '(t', _) ← insert key obj t; Ok t'
  | Erase key => erase key t
  end.

Fixpoint run (ops : list operation) (t : hashtable) : result hashtable :=
  match ops with
  | [] => Ok t
  | o :: ops' => t' ← apply_operation o t; run ops' t'
  end.

(** The table a call leaves in memory when it ends: the table it returns
    with, or, for an [erase] that finds the key, the table its loop body has
    written when the increment of the invalidated iterator is reached.  [None]
    when the call ends before it has the bucket of the key. *)
Definition memory_after (o : operation) (t : hashtable) : option hashtable :=
  match o with
  | Insert key obj =>
      match insert key obj t with
      | Ok (t', _) => Some t'
      | _ => None
      end
  | Erase key =>
      match index_of t key with
      | Ok index =>
          match bucket_ref t index with
          | Ok b =>
              match chain_scan (λ e, equal_to_ key e.1) b 0 with
              | Some j => Some (erase_entry t index b j)
              | None => Some t
              end
          | _ => None
          end
      | _ => None
      end
  end.

Fixpoint run_memory (ops : list operation) (t : hashtable)
  : option hashtable :=
  match ops with
  | [] => Some t
  | o :: ops' =>
      match memory_after o t with
      | Some t' => run_memory ops' t'
      | None => None
      end
  end.

(** ** Predicates of the statements *)

(** The table as the constructor builds it, asked for at least one bucket,
    and as [insert] keeps it: [table_] has [bucket_count_] buckets, at least
    one, and [bucket_count_] is a [size_t]. *)
Record well_formed (t : hashtable) : Prop := WellFormed {
  wf_length : N.of_nat (length (table_ t)) = bucket_count_ t;
  wf_positive : 0 < bucket_count_ t;
  wf_size_t : bucket_count_ t < SIZE_MOD
}.

(** [size] is the sum of the lengths of the chains. *)
Definition size_invariant (t : hashtable) : Prop :=
  count t = N.of_nat (sum_list (length <$> table_ t)).

(** Every entry is in the bucket its key hashes to. *)
Definition placement_invariant (t : hashtable) : Prop :=
  ∀ (i : nat) (b : bucket_type) (e : hash_entry_type),
    table_ t !! i = Some b → e ∈ b → N.of_nat i = h_ e.1 mod bucket_count t.

(** Every bucket is empty. *)
Definition all_empty (l : index_table) : Prop := Forall (λ b, b = []) l.

(** The chain positions of the entries of the chain [b] of bucket [i], head
    first, [j] being the offset of the head. *)
Fixpoint chain_positions (i : N) (j : nat) (b : bucket_type)
  : list (bucket_iterator * hash_entry_type) :=
  match b with
  | [] => []
  | e :: b' => (Node i j, e) :: chain_positions i (S j) b'
  end.

(** The chain positions of all entries of the buckets [l], the first of which
    is bucket [i]: bucket after bucket. *)
Fixpoint table_positions (i : N) (l : index_table)
  : list (bucket_iterator * hash_entry_type) :=
  match l with
  | [] => []
  | b :: l' => chain_positions i 0 b ++ table_positions (i + 1) l'
  end.

(** ** The remaining members *)

(** [T& at(Key const& key)]: [find(key)->second], with no check that
    [find] has found the key. *)
Definition at_key (key : Key) (t : hashtable) : result T :=
  it ← find key t;
  e ← deref t it;
  Ok e.2.

(** [T& operator[](Key const& key)]: [at(key)]. *)
Definition subscript_key (key : Key) (t : hashtable) : result T :=
  at_key key t.

(** [bucket_type& operator[](size_t index)]: [at(index)]. *)
Definition subscript_index (t : hashtable) (index : N) : result bucket_type :=
  at_ t index.

(** [iterator::operator!=] and [const_iterator::operator!=]:
    the negation of [operator==]. *)
Definition iterator_ne (a b : iterator) : bool := negb (iterator_eq a b).


(** [iterator::operator++(int)] (postfix): a copy of the object is taken,
    the object is advanced by the prefix operator, and the copy is returned.
    The iterator object after the call and the iterator returned. *)
Definition operator_inc_post (t : hashtable) (it : iterator)
  : result (iterator * iterator) :=
  '(it', _) ← operator_inc t it;
  Ok (it', it).

(** [cend()]: the text of [end()] with [const_iterator]. *)
Fixpoint cend_loop (t : hashtable) (index : nat) : result const_iterator :=
  b ← at_ t (N.of_nat index);
  match b with
  | [] =>
      match index with
      | O =>
          _ ← at_ t (size_pred (bucket_count t));
          Ok (ConstIterator 0 (bucket_end (size_pred (bucket_count t))))
      | S index' => cend_loop t index'
      end
  | _ :: _ =>
      Ok (ConstIterator (N.of_nat index) (bucket_end (N.of_nat index)))
  end.

Definition cend (t : hashtable) : result const_iterator :=
  let index := size_pred (bucket_count t) in
  if index <? N.of_nat (length (table_ t))
  then cend_loop t (N.to_nat index)
  else OutOfRange.

(** [cbegin()]: the text of [begin()] with [const_iterator]. *)
Fixpoint cbegin_loop (t : hashtable) (index : N) (rest : index_table)
  : result const_iterator :=
  match rest with
  | [] => OutOfRange
  | [] :: rest' =>
      if index =? size_pred (bucket_count t)
      then
        _ ← at_ t (size_pred (bucket_count t));
        Ok (ConstIterator index (bucket_end (size_pred (bucket_count t))))
      else cbegin_loop t (index + 1) rest'
  | (_ :: _) as b :: _ => Ok (ConstIterator index (bucket_begin index b))
  end.

Definition cbegin (t : hashtable) : result const_iterator :=
  cbegin_loop t 0 (table_ t).






(** [operator=(rhs)]: the table afterwards.  [same_object] says that [rhs]
    is this very object, which the function tests by address and then leaves
    as it is.  Otherwise [table_] becomes a vector of [rhs.bucket_count_]
    empty chains, over which [std::copy] writes the chains of [rhs.table_]
    from the front; the copy stays inside the vector only when [rhs.table_]
    has at most that many chains. *)
Definition operator_assign (this rhs : hashtable) (same_object : bool)
  : result hashtable :=
  if same_object then Ok this
  else if N.of_nat (length (table_ rhs)) <=? bucket_count_ rhs
  then
    Ok (Hashtable
          (table_ rhs ++
           replicate (N.to_nat (bucket_count_ rhs) - length (table_ rhs)) [])
          (bucket_count_ rhs) (count_ rhs))
  else Undefined.


(** Within every chain, an entry's key does not compare equal to the key of
    an entry further on, in the order in which [insert] compares them:
    stored key first. *)
Definition unique_keys (t : hashtable) : Prop :=
  ∀ (i j1 j2 : nat) (b : bucket_type) (e1 e2 : hash_entry_type),
    table_ t !! i = Some b → b !! j1 = Some e1 → b !! j2 = Some e2 →
    (j1 < j2)%nat → equal_to_ e1.1 e2.1 = false.

(** A cursor at a stored entry, built the way the comment above the
    constructor of [iterator] asks for: [entry_] is a node of the chain of
    bucket [index_]. *)
Definition at_entry (t : hashtable) (it : iterator) : Prop :=
  ∃ (b : bucket_type) (j : nat),
    table_ t !! N.to_nat (index_ it) = Some b ∧
    entry_ it = Node (index_ it) j ∧ (j < length b)%nat.

End hashtable.

Arguments operation : clear implicits.

(** ** The load factor of the documentation *)

(** The comment of [load_factor] gives the value as n/k, with n the number
    of objects and k the number of buckets: the quotient over the
    rationals. *)
Definition load_factor_documented {Key T : Type} (t : hashtable Key T) : Q :=
  (inject_Z (Z.of_N (count t)) / inject_Z (Z.of_N (bucket_count t)))%Q.

(** ** Sample tables *)

(** Four buckets and three keys with the indices 1, 1 and 3. *)
Definition scenario_operations : list (operation N N) :=
  [Insert 1 10; Insert 5 50; Insert 3 30].

Definition scenario_table : hashtable N N :=
  Hashtable [[]; [(1, 10); (5, 50)]; []; [(3, 30)]] 4 3.

(** Three buckets, no entry. *)
Definition empty_table : hashtable N N := Hashtable [[]; []; []] 3 0.

(** Four buckets, one entry. *)
Definition single_entry_table : hashtable N N :=
  Hashtable [[]; [(1, 10)]; []; []] 4 1.

(** * Properties *)

Section properties.
Context {Key T : Type} `{!Hasher Key, !KeyEqual Key}.
Implicit Types (t : hashtable Key T) (b : bucket_type Key T).
Implicit Types (l : index_table Key T) (e : hash_entry_type Key T).
Implicit Types (it : iterator) (key : Key) (obj : T).

(** ** Machine integers and vector access *)

Lemma size_pred_positive (n : N) : 0 < n → n < SIZE_MOD → size_pred n = n - 1.
Proof.
  intros Hpos Hlt. unfold size_pred.
  replace (n + (SIZE_MOD - 1)) with ((n - 1) + 1 * SIZE_MOD) by lia.
  rewrite N.Div0.mod_add. apply N.mod_small. lia.
Qed.

Lemma size_succ_small (n : N) : n + 1 < SIZE_MOD → size_succ n = n + 1.
Proof. intros Hlt. unfold size_succ. by apply N.mod_small. Qed.

Lemma at_lookup t (i : nat) b :
  table_ t !! i = Some b → at_ t (N.of_nat i) = Ok b.
Proof.
  intros Hi. unfold at_. pose proof (lookup_lt_Some _ _ _ Hi) as Hlt.
  destruct (N.ltb_spec (N.of_nat i) (N.of_nat (length (table_ t)))); [|lia].
  by rewrite Nat2N.id, Hi.
Qed.

Lemma bucket_ref_lookup t (i : nat) b :
  table_ t !! i = Some b → bucket_ref t (N.of_nat i) = Ok b.
Proof.
  intros Hi. unfold bucket_ref. pose proof (lookup_lt_Some _ _ _ Hi) as Hlt.
  destruct (N.ltb_spec (N.of_nat i) (N.of_nat (length (table_ t)))); [|lia].
  by rewrite Nat2N.id, Hi.
Qed.

Lemma bucket_ref_Ok t (i : N) b :
  bucket_ref t i = Ok b → table_ t !! N.to_nat i = Some b.
Proof.
  unfold bucket_ref. destruct (i <? _); [|done].
  destruct (table_ t !! N.to_nat i); simpl; congruence.
Qed.

Lemma at_out_of_range t (i : N) :
  table_ t !! N.to_nat i = None → at_ t i = OutOfRange.
Proof.
  intros Hi. unfold at_. rewrite Hi. simpl. by destruct (_ <? _).
Qed.

Lemma at_lookup_N t (i : N) b :
  table_ t !! N.to_nat i = Some b → at_ t i = Ok b.
Proof. intros Hi. rewrite <- (N2Nat.id i). by apply at_lookup. Qed.

(** ** The loops written over [at] *)

(** [begin_loop] and [next_bucket] recurse over the buckets that are left;
    handed the buckets from [index] on, they satisfy the equation of the loop
    of the source, which reads bucket [index] through [at]. *)
Lemma begin_loop_unfold t (index : N) :
  begin_loop t index (drop (N.to_nat index) (table_ t)) =
    b ← at_ t index;
    match b with
    | [] =>
        if index =? size_pred (bucket_count t)
        then
          _ ← at_ t (size_pred (bucket_count t));
          Ok (Iterator index (bucket_end (size_pred (bucket_count t))))
        else begin_loop t (index + 1)
               (drop (N.to_nat (index + 1)) (table_ t))
    | _ :: _ => Ok (Iterator index (bucket_begin index b))
    end.
Proof.
  destruct (table_ t !! N.to_nat index) as [b|] eqn:Hb.
  - rewrite (drop_S _ _ _ Hb), (at_lookup_N _ _ _ Hb). simpl.
    replace (N.to_nat (index + 1)) with (S (N.to_nat index)) by lia.
    by destruct b.
  - rewrite (at_out_of_range _ _ Hb), drop_ge; [done|].
    by apply lookup_ge_None.
Qed.

Lemma next_bucket_unfold t (index : N) :
  next_bucket t index (drop (N.to_nat index) (table_ t)) =
    if index =? bucket_count t then Ok None else
    b ← at_ t index;
    match b with
    | [] => next_bucket t (index + 1)
              (drop (N.to_nat (index + 1)) (table_ t))
    | _ :: _ => Ok (Some index)
    end.
Proof.
  destruct (table_ t !! N.to_nat index) as [b|] eqn:Hb.
  - rewrite (drop_S _ _ _ Hb), (at_lookup_N _ _ _ Hb). simpl.
    replace (N.to_nat (index + 1)) with (S (N.to_nat index)) by lia.
    by destruct b.
  - rewrite (at_out_of_range _ _ Hb), drop_ge by (by apply lookup_ge_None).
    simpl. by destruct (index =? bucket_count t).
Qed.

(** ** [end()] *)

Lemma end_loop_unfold t (n : nat) :
  end_loop t n =
    b ← at_ t (N.of_nat n);
    match b with
    | [] =>
        match n with
        | O =>
            _ ← at_ t (size_pred (bucket_count t));
            Ok (Iterator 0 (bucket_end (size_pred (bucket_count t))))
        | S n' => end_loop t n'
        end
    | _ :: _ => Ok (Iterator (N.of_nat n) (bucket_end (N.of_nat n)))
    end.
Proof. by destruct n. Qed.

(** The loop stops at the first non-empty bucket met on the way down. *)
Lemma end_loop_nonempty t (n i : nat) e b :
  (i ≤ n)%nat →
  table_ t !! i = Some (e :: b) →
  (∀ k, (i < k ≤ n)%nat → table_ t !! k = Some []) →
  end_loop t n = Ok (Iterator (N.of_nat i) (End (N.of_nat i))).
Proof.
  intros Hle Hi. induction n as [|n IH]; intros Hempty.
  - assert (i = 0%nat) as -> by lia.
    rewrite end_loop_unfold, (at_lookup _ _ _ Hi). done.
  - destruct (decide (i = S n)) as [->|Hne].
    + rewrite end_loop_unfold, (at_lookup _ _ _ Hi). done.
    + rewrite end_loop_unfold, (at_lookup t (S n) []) by (apply Hempty; lia).
      simpl. apply IH; [lia|]. intros k Hk. apply Hempty. lia.
Qed.

(** With only empty buckets on the way down it reaches bucket 0 and gives
    the end of the last bucket. *)
Lemma end_loop_empty t (n : nat) b :
  (∀ k, (k ≤ n)%nat → table_ t !! k = Some []) →
  at_ t (size_pred (bucket_count t)) = Ok b →
  end_loop t n = Ok (Iterator 0 (End (size_pred (bucket_count t)))).
Proof.
  intros Hempty Hlast. induction n as [|n IH].
  - rewrite end_loop_unfold, (at_lookup t 0 []) by (apply Hempty; lia).
    simpl. by rewrite Hlast.
  - rewrite end_loop_unfold, (at_lookup t (S n) []) by (apply Hempty; lia).
    simpl. apply IH. intros k Hk. apply Hempty. lia.
Qed.

Lemma end_loop_is_End t (n : nat) it :
  end_loop t n = Ok it → ∃ i, entry_ it = End i.
Proof.
  revert it. induction n as [|n IH]; intros it; rewrite end_loop_unfold.
  - destruct (at_ t (N.of_nat 0)) as [[|e b]| |]; simpl; try done.
    + destruct (at_ t (size_pred (bucket_count t))); simpl; try done.
      intros [= <-]. by eexists.
    + intros [= <-]. by eexists.
  - destruct (at_ t (N.of_nat (S n))) as [[|e b]| |]; simpl; try done.
    + apply IH.
    + intros [= <-]. by eexists.
Qed.

(** The [entry_] of [end()] is always the sentinel of some chain. *)
Lemma end_is_End t it : end_ t = Ok it → ∃ i, entry_ it = End i.
Proof.
  unfold end_. destruct (_ <? _); [|done]. apply end_loop_is_End.
Qed.

Lemma well_formed_last t :
  well_formed t →
  size_pred (bucket_count t) = bucket_count_ t - 1 ∧
  N.to_nat (size_pred (bucket_count t)) = pred (length (table_ t)) ∧
  length (table_ t) ≠ 0%nat.
Proof.
  intros [Hlen Hpos Hlt]. unfold bucket_count.
  rewrite size_pred_positive by done. lia.
Qed.

(** The bounds check in front of [end_loop] is the one its first [at]
    makes. *)
Lemma end_loop_out_of_range t (n : nat) :
  (length (table_ t) ≤ n)%nat → end_loop t n = OutOfRange.
Proof.
  intros Hn. rewrite end_loop_unfold, (at_out_of_range t (N.of_nat n)); [done|].
  rewrite Nat2N.id. by apply lookup_ge_None.
Qed.

Lemma end_loop_from_last t :
  end_ t = end_loop t (N.to_nat (size_pred (bucket_count t))).
Proof.
  unfold end_. destruct (N.ltb_spec (size_pred (bucket_count t))
                           (N.of_nat (length (table_ t)))); [done|].
  symmetry. apply end_loop_out_of_range. lia.
Qed.

Lemma end_unfold t :
  well_formed t → end_ t = end_loop t (pred (length (table_ t))).
Proof.
  intros Hwf. destruct (well_formed_last t Hwf) as (Hp & Hn & Hne).
  unfold end_. rewrite Hn.
  destruct (N.ltb_spec (size_pred (bucket_count t))
              (N.of_nat (length (table_ t)))); [done|lia].
Qed.

(** [end()] returns on every well-formed table. *)
Lemma end_returns t : well_formed t → ∃ fin : iterator, end_ t = Ok fin.
Proof.
  intros Hwf. destruct (well_formed_last t Hwf) as (Hp & Hn & Hne).
  rewrite end_unfold by done.
  assert (∃ b, at_ t (size_pred (bucket_count t)) = Ok b) as [blast Hlast].
  { destruct (lookup_lt_is_Some_2 (table_ t) (pred (length (table_ t))))
      as [b Hb]; [lia|].
    exists b. rewrite <- (N2Nat.id (size_pred _)), Hn. by apply at_lookup. }
  assert (pred (length (table_ t)) < length (table_ t))%nat as Hlt by lia.
  revert Hlt. generalize (pred (length (table_ t))) as n.
  induction n as [|n IH]; intros Hlt; rewrite end_loop_unfold;
    (destruct (lookup_lt_is_Some_2 (table_ t) _ Hlt) as [b Hb]);
    rewrite (at_lookup _ _ _ Hb); simpl; destruct b; try by eexists.
  - rewrite Hlast. by eexists.
  - apply IH. lia.
Qed.

(** [end()] of a table whose last non-empty bucket is bucket [length l]. *)
Lemma end_last_nonempty t l e b l' :
  well_formed t →
  table_ t = l ++ (e :: b) :: l' → all_empty l' →
  end_ t = Ok (Iterator (N.of_nat (length l)) (End (N.of_nat (length l)))).
Proof.
  intros Hwf Ht Hl'. rewrite end_unfold by done.
  apply end_loop_nonempty with (e := e) (b := b).
  - rewrite Ht, length_app. simpl. lia.
  - rewrite Ht. by apply list_lookup_middle.
  - intros k Hk. rewrite Ht, length_app in Hk. simpl in Hk.
    rewrite Ht, lookup_app_r by lia.
    destruct (k - length l)%nat as [|m] eqn:Hm; [lia|]. simpl.
    destruct (lookup_lt_is_Some_2 l' m) as [x Hx]; [lia|].
    rewrite Hx. f_equal. eapply Forall_lookup_1 in Hl'; [|done]. done.
Qed.

Lemma all_empty_lookup l (k : nat) :
  all_empty l → (k < length l)%nat → l !! k = Some [].
Proof.
  intros Hl Hk. destruct (lookup_lt_is_Some_2 l k Hk) as [x Hx].
  rewrite Hx. f_equal. by eapply Forall_lookup_1 in Hl.
Qed.

Lemma end_last_chain t l d e l' :
  well_formed t →
  table_ t = l ++ (d ++ [e]) :: l' → all_empty l' →
  end_ t = Ok (Iterator (N.of_nat (length l)) (End (N.of_nat (length l)))).
Proof.
  intros Hwf Ht Hl'.
  destruct (d ++ [e]) as [|x y] eqn:Hde; [by destruct d|].
  by eapply end_last_nonempty.
Qed.

(** [end()] of a table with only empty buckets. *)
Lemma end_all_empty t :
  well_formed t → all_empty (table_ t) →
  end_ t = Ok (Iterator 0 (End (bucket_count_ t - 1))).
Proof.
  intros Hwf Hempty. destruct (well_formed_last t Hwf) as (Hp & Hn & Hne).
  rewrite end_unfold by done. rewrite <- Hp.
  apply end_loop_empty with (b := []).
  - intros k Hk. apply all_empty_lookup; [done|lia].
  - rewrite <- (N2Nat.id (size_pred _)). apply at_lookup.
    apply all_empty_lookup; [done|lia].
Qed.

(** ** Splitting a table at its first non-empty bucket *)

Lemma drop_past_middle {A} (l k : list A) (x : A) :
  drop (S (length l)) (l ++ x :: k) = k.
Proof. induction l as [|y l IH]; [done|]. apply IH. Qed.

Lemma first_nonempty l :
  all_empty l ∨
  ∃ l1 e b l2, l = l1 ++ (e :: b) :: l2 ∧ all_empty l1.
Proof.
  induction l as [|[|e b] l IH].
  - left. constructor.
  - destruct IH as [IH|(l1 & e & b & l2 & -> & Hl1)].
    + left. by constructor.
    + right. exists ([] :: l1), e, b, l2. split; [done|by constructor].
  - right. exists [], e, b, l. split; [done|constructor].
Qed.

(** ** [begin()] *)

Lemma begin_loop_nonempty t (index : N) l1 e b l2 :
  all_empty l1 →
  index + N.of_nat (length l1) ≤ size_pred (bucket_count t) →
  begin_loop t index (l1 ++ (e :: b) :: l2) =
    Ok (Iterator (index + N.of_nat (length l1))
          (Node (index + N.of_nat (length l1)) 0)).
Proof.
  intros Hl1. revert index.
  induction Hl1 as [|x l1 -> _ IH]; intros index Hle; simpl.
  - by rewrite N.add_0_r.
  - simpl in Hle. destruct (N.eqb_spec index (size_pred (bucket_count t))); [lia|].
    replace (index + N.of_nat (S (length l1)))
      with (index + 1 + N.of_nat (length l1)) by lia.
    apply IH. lia.
Qed.

Lemma begin_loop_empty t (index : N) l b :
  all_empty l → l ≠ [] →
  index + N.of_nat (length l) = size_pred (bucket_count t) + 1 →
  at_ t (size_pred (bucket_count t)) = Ok b →
  begin_loop t index l =
    Ok (Iterator (size_pred (bucket_count t))
          (End (size_pred (bucket_count t)))).
Proof.
  intros Hl. revert index.
  induction Hl as [|x l -> Hl IH]; intros index Hne Hlen Hlast; [done|].
  simpl. simpl in Hlen.
  destruct (N.eqb_spec index (size_pred (bucket_count t))) as [->|Hneq].
  - by rewrite Hlast.
  - apply IH; [|lia|done]. intros ->. simpl in Hlen. lia.
Qed.

(** [begin()] of a table whose first non-empty bucket is bucket [length l1]. *)
Lemma begin_first_nonempty t l1 e b l2 :
  well_formed t →
  table_ t = l1 ++ (e :: b) :: l2 → all_empty l1 →
  begin t = Ok (Iterator (N.of_nat (length l1)) (Node (N.of_nat (length l1)) 0)).
Proof.
  intros Hwf Ht Hl1. destruct (well_formed_last t Hwf) as (Hp & Hn & Hne).
  unfold begin. rewrite Ht, begin_loop_nonempty; [done..|].
  rewrite Ht, length_app in Hn. simpl in Hn. lia.
Qed.

(** [begin()] of a table with only empty buckets. *)
Lemma begin_all_empty t :
  well_formed t → all_empty (table_ t) →
  begin t = Ok (Iterator (bucket_count_ t - 1) (End (bucket_count_ t - 1))).
Proof.
  intros Hwf Hempty. destruct (well_formed_last t Hwf) as (Hp & Hn & Hne).
  unfold begin. rewrite <- Hp. apply begin_loop_empty with (b := []).
  - done.
  - intros Hnil. by rewrite Hnil in Hne.
  - lia.
  - rewrite <- (N2Nat.id (size_pred _)). apply at_lookup.
    apply all_empty_lookup; [done|lia].
Qed.

(** ** [operator++] *)

Lemma next_bucket_nonempty t (index : N) l1 e b l2 :
  all_empty l1 →
  index + N.of_nat (length l1) < bucket_count t →
  next_bucket t index (l1 ++ (e :: b) :: l2) =
    Ok (Some (index + N.of_nat (length l1))).
Proof.
  intros Hl1. revert index.
  induction Hl1 as [|x l1 -> _ IH]; intros index Hlt; simpl in *.
  - destruct (N.eqb_spec index (bucket_count t)); [lia|].
    by rewrite N.add_0_r.
  - destruct (N.eqb_spec index (bucket_count t)); [lia|].
    replace (index + N.of_nat (S (length l1)))
      with (index + 1 + N.of_nat (length l1)) by lia.
    apply IH. lia.
Qed.

Lemma next_bucket_empty t (index : N) l :
  all_empty l →
  index + N.of_nat (length l) = bucket_count t →
  next_bucket t index l = Ok None.
Proof.
  intros Hl. revert index.
  induction Hl as [|x l -> _ IH]; intros index Hlen; simpl in *.
  - destruct (N.eqb_spec index (bucket_count t)); [done|lia].
  - destruct (N.eqb_spec index (bucket_count t)); [done|].
    apply IH. lia.
Qed.

(** Inside a chain, not at its last node: the iterator moves to the next node
    of the same chain. *)
Lemma operator_inc_within t (i j : nat) b :
  table_ t !! i = Some b → (S j < length b)%nat →
  operator_inc t (Iterator (N.of_nat i) (Node (N.of_nat i) j)) =
    Ok (Iterator (N.of_nat i) (Node (N.of_nat i) (S j)),
        Iterator (N.of_nat i) (Node (N.of_nat i) (S j))).
Proof.
  intros Hi Hj. unfold operator_inc; simpl.
  rewrite (at_lookup _ _ _ Hi). simpl.
  destruct b as [|e b]; [simpl in Hj; lia|].
  rewrite (bucket_ref_lookup _ _ _ Hi). simpl.
  by rewrite decide_True.
Qed.

(** At the last node of a chain the search for the next bucket starts, with
    [entry_] at the sentinel of the chain. *)
Lemma operator_inc_chain_end t (i j : nat) b :
  table_ t !! i = Some b → S j = length b →
  operator_inc t (Iterator (N.of_nat i) (Node (N.of_nat i) j)) =
    advance_bucket t (N.of_nat i) (End (N.of_nat i)).
Proof.
  intros Hi Hj. unfold operator_inc; simpl.
  rewrite (at_lookup _ _ _ Hi). simpl.
  destruct b as [|e b]; [done|].
  rewrite (bucket_ref_lookup _ _ _ Hi). simpl.
  rewrite decide_False by (simpl in Hj; lia).
  rewrite decide_True by done. simpl.
  rewrite decide_False; [done|]. unfold bucket_end. by intros [].
Qed.

(** At the last node of a chain, with a non-empty bucket further on. *)
Lemma operator_inc_next_bucket t l d e l1 e' b' l2 :
  well_formed t →
  table_ t = l ++ (d ++ [e]) :: l1 ++ (e' :: b') :: l2 → all_empty l1 →
  let i := N.of_nat (length l) in
  let i' := N.of_nat (length (l ++ (d ++ [e]) :: l1)) in
  operator_inc t (Iterator i (Node i (length d))) =
    Ok (Iterator i' (Node i' 0), Iterator i' (Node i' 0)).
Proof.
  intros Hwf Ht Hl1 i i'. destruct Hwf as [Hlen Hpos Hlt].
  assert (table_ t !! length l = Some (d ++ [e])) as Hi
    by (rewrite Ht; apply list_lookup_middle; done).
  assert (table_ t !! length (l ++ (d ++ [e]) :: l1) = Some (e' :: b')) as Hi'.
  { rewrite Ht.
    replace (l ++ (d ++ [e]) :: l1 ++ (e' :: b') :: l2)
      with ((l ++ (d ++ [e]) :: l1) ++ (e' :: b') :: l2)
      by (by rewrite <- app_assoc).
    by apply list_lookup_middle. }
  subst i. rewrite (operator_inc_chain_end _ _ _ _ Hi)
    by (rewrite length_app; simpl; lia).
  unfold advance_bucket. rewrite Nat2N.id, Ht.
  rewrite drop_past_middle.
  rewrite next_bucket_nonempty; [|done|].
  - simpl.
    replace (N.of_nat (length l) + 1 + N.of_nat (length l1)) with i'
      by (subst i'; rewrite length_app; simpl; lia).
    subst i'. rewrite (at_lookup _ _ _ Hi'). done.
  - unfold bucket_count. rewrite <- Hlen, Ht, !length_app. simpl.
    rewrite length_app. simpl. lia.
Qed.

(** At the last node of the last non-empty chain: the object keeps the
    sentinel of that chain with [index_] at [bucket_count()], and [end()] is
    returned. *)
Lemma operator_inc_last t l d e l1 :
  well_formed t →
  table_ t = l ++ (d ++ [e]) :: l1 → all_empty l1 →
  let i := N.of_nat (length l) in
  operator_inc t (Iterator i (Node i (length d))) =
    Ok (Iterator (bucket_count t) (End i), Iterator i (End i)).
Proof.
  intros Hwf Ht Hl1 i.
  assert (table_ t !! length l = Some (d ++ [e])) as Hi
    by (rewrite Ht; apply list_lookup_middle; done).
  assert (end_ t = Ok (Iterator i (End i))) as Hend
    by (by eapply end_last_chain).
  destruct Hwf as [Hlen Hpos Hlt].
  subst i. rewrite (operator_inc_chain_end _ _ _ _ Hi)
    by (rewrite length_app; simpl; lia).
  unfold advance_bucket. rewrite Nat2N.id, Ht.
  rewrite drop_past_middle.
  rewrite next_bucket_empty; [|done|].
  - simpl. by rewrite Hend.
  - unfold bucket_count. rewrite <- Hlen, Ht, !length_app. simpl. lia.
Qed.

(** ** Chain positions *)

Lemma table_positions_all_empty (i : N) l l' :
  all_empty l →
  table_positions i (l ++ l') = table_positions (i + N.of_nat (length l)) l'.
Proof.
  intros Hl. revert i. induction Hl as [|x l -> _ IH]; intros i; simpl.
  - by rewrite N.add_0_r.
  - rewrite IH. f_equal. lia.
Qed.

Lemma chain_positions_snd (i : N) (j : nat) b : (chain_positions i j b).*2 = b.
Proof. revert j. induction b as [|e b IH]; intros j; simpl; by f_equal. Qed.

Lemma table_positions_snd (i : N) l : (table_positions i l).*2 = concat l.
Proof.
  revert i. induction l as [|b l IH]; intros i; simpl; [done|].
  by rewrite fmap_app, chain_positions_snd, IH.
Qed.

Lemma chain_positions_elem (i : N) (j : nat) b p :
  p ∈ (chain_positions i j b).*1 → ∃ j', p = Node i j' ∧ (j ≤ j')%nat.
Proof.
  revert j. induction b as [|e b IH]; intros j; simpl.
  - by intros ?%elem_of_nil.
  - intros [->|Hp]%elem_of_cons.
    + by exists j.
    + destruct (IH _ Hp) as (j' & -> & Hj'). exists j'. split; [done|lia].
Qed.

Lemma table_positions_elem (i : N) l p :
  p ∈ (table_positions i l).*1 → ∃ i' j', p = Node i' j' ∧ i ≤ i'.
Proof.
  revert i. induction l as [|b l IH]; intros i; simpl.
  - by intros ?%elem_of_nil.
  - rewrite fmap_app. intros [Hp|Hp]%elem_of_app.
    + destruct (chain_positions_elem _ _ _ _ Hp) as (j' & -> & _).
      by exists i, j'.
    + destruct (IH _ Hp) as (i' & j' & -> & Hi'). exists i', j'.
      split; [done|lia].
Qed.

Lemma chain_positions_NoDup (i : N) (j : nat) b :
  NoDup (chain_positions i j b).*1.
Proof.
  revert j. induction b as [|e b IH]; intros j; simpl; constructor.
  - intros (j' & [= ->] & Hj')%chain_positions_elem. lia.
  - apply IH.
Qed.

Lemma table_positions_NoDup (i : N) l : NoDup (table_positions i l).*1.
Proof.
  revert i. induction l as [|b l IH]; intros i; simpl; [constructor|].
  rewrite fmap_app. apply NoDup_app. split_and!.
  - apply chain_positions_NoDup.
  - intros p (j' & -> & _)%chain_positions_elem
      (i' & j'' & [= -> ->] & Hi')%table_positions_elem. lia.
  - apply IH.
Qed.

(** ** The traversal *)

Lemma if_both {A} (c : bool) (x : A) : (if c then x else x) = x.
Proof. by destruct c. Qed.

Lemma traverse_from_end (by_value : bool) t (fuel : nat) it fin :
  end_ t = Ok fin → iterator_eq it fin = true →
  traverse_from by_value t fuel it = Some (Ok []).
Proof. intros He Heq. destruct fuel; simpl; by rewrite He, Heq. Qed.

Lemma traverse_from_step (by_value : bool) t (fuel : nat) it it' fin x ret :
  end_ t = Ok fin → iterator_eq it fin = false →
  deref t it = Ok x → operator_inc t it = Ok (it', ret) →
  traverse_from by_value t (S fuel) it =
    match traverse_from by_value t fuel (if by_value then ret else it') with
    | Some (Ok xs) => Some (Ok ((entry_ it, x) :: xs))
    | r => r
    end.
Proof. intros He Heq Hx Hinc. simpl. by rewrite He, Heq, Hx, Hinc. Qed.

(** From a node of a chain the traversal visits the rest of that chain and
    then every later bucket, in order. *)
Lemma traverse_from_node (by_value : bool) t (fuel : nat) l d e b l' :
  well_formed t →
  table_ t = l ++ (d ++ e :: b) :: l' →
  (S (length b) + length (concat l') ≤ fuel)%nat →
  let i := N.of_nat (length l) in
  traverse_from by_value t fuel (Iterator i (Node i (length d))) =
    Some (Ok (chain_positions i (length d) (e :: b)
              ++ table_positions (i + 1) l')).
Proof.
  intros Hwf. revert l d e b l'.
  induction fuel as [|fuel IH]; intros l d e b l' Ht Hfuel i; [lia|].
  assert (table_ t !! length l = Some (d ++ e :: b)) as Hi
    by (rewrite Ht; apply list_lookup_middle; done).
  assert (∃ fin, end_ t = Ok fin ∧
            iterator_eq (Iterator i (Node i (length d))) fin = false)
    as (fin & He0 & Hne0).
  { destruct (end_returns t Hwf) as [fin He0].
    exists fin. split; [done|].
    destruct (end_is_End _ _ He0) as [k Hk].
    unfold iterator_eq. simpl. rewrite Hk. by apply bool_decide_eq_false. }
  assert (deref t (Iterator i (Node i (length d))) = Ok e) as Hderef.
  { unfold deref; simpl. subst i. rewrite (bucket_ref_lookup _ _ _ Hi). simpl.
    by rewrite list_lookup_middle. }
  destruct b as [|e' b].
  - (* the last node of the chain *)
    destruct (first_nonempty l') as [Hl'|(l1 & e1 & b1 & l2 & -> & Hl1)].
    + pose proof (operator_inc_last t l d e l' Hwf Ht Hl') as Hinc.
      erewrite traverse_from_step; [|done..].
      erewrite traverse_from_end.
      * simpl. do 3 f_equal.
        rewrite <- (app_nil_r l'), table_positions_all_empty by done. done.
      * by apply (end_last_chain t l d e l').
      * destruct by_value; by apply bool_decide_eq_true.
    + pose proof (operator_inc_next_bucket t l d e l1 e1 b1 l2 Hwf Ht Hl1)
        as Hinc.
      erewrite traverse_from_step; [|done..].
      specialize (IH (l ++ (d ++ [e]) :: l1) [] e1 b1 l2).
      simpl in IH. rewrite (if_both by_value), IH.
      * simpl. do 3 f_equal. rewrite table_positions_all_empty by done.
        simpl.
        replace (N.of_nat (length (l ++ (d ++ [e]) :: l1)))
          with (i + 1 + N.of_nat (length l1))
          by (subst i; rewrite length_app; simpl; lia).
        done.
      * by rewrite Ht, <- app_assoc.
      * simpl in Hfuel. rewrite concat_app, length_app in Hfuel. simpl in Hfuel.
        rewrite length_app in Hfuel. simpl in Hfuel. lia.
  - (* inside the chain *)
    assert (operator_inc t (Iterator i (Node i (length d))) =
              Ok (Iterator i (Node i (S (length d))),
                  Iterator i (Node i (S (length d))))) as Hinc.
    { apply operator_inc_within with (b := d ++ e :: e' :: b); [done|].
      rewrite length_app. simpl. lia. }
    erewrite traverse_from_step; [|done..].
    specialize (IH l (d ++ [e]) e' b l'). rewrite length_app in IH.
    simpl in IH. rewrite Nat.add_1_r in IH. fold i in IH.
    rewrite (if_both by_value), IH.
    + done.
    + by rewrite <- app_assoc.
    + simpl in Hfuel. lia.
Qed.

(** The whole traversal: every chain position of the table, bucket after
    bucket and every chain from head to tail. *)
Lemma traverse_table_positions (by_value : bool) t (fuel : nat) :
  well_formed t →
  (length (concat (table_ t)) ≤ fuel)%nat →
  traverse by_value t fuel = Some (Ok (table_positions 0 (table_ t))).
Proof.
  intros Hwf Hfuel. unfold traverse.
  destruct (first_nonempty (table_ t)) as [Hall|(l1 & e & b & l2 & Ht & Hl1)].
  - rewrite begin_all_empty by done.
    erewrite traverse_from_end.
    + do 2 f_equal. rewrite <- (app_nil_r (table_ t)).
      by rewrite table_positions_all_empty.
    + by apply end_all_empty.
    + by apply bool_decide_eq_true.
  - rewrite (begin_first_nonempty t l1 e b l2) by done.
    pose proof (traverse_from_node by_value t fuel l1 [] e b l2 Hwf Ht)
      as Hnode.
    simpl in Hnode. rewrite Hnode.
    + do 2 f_equal. rewrite Ht, table_positions_all_empty by done. done.
    + rewrite Ht, concat_app, length_app in Hfuel. simpl in Hfuel.
      rewrite length_app in Hfuel. simpl in Hfuel. lia.
Qed.

(** ** The chain scan *)

Lemma chain_scan_ext (p q : hash_entry_type Key T → bool) b (j : nat) :
  (∀ e, p e = q e) → chain_scan p b j = chain_scan q b j.
Proof.
  intros Hpq. revert j. induction b as [|e b IH]; intros j; simpl; [done|].
  by rewrite Hpq, IH.
Qed.

Lemma chain_scan_app_None (p : hash_entry_type Key T → bool) b e (j : nat) :
  chain_scan p b j = None →
  chain_scan p (b ++ [e]) j = if p e then Some (j + length b)%nat else None.
Proof.
  revert j. induction b as [|x b IH]; intros j; simpl.
  - intros _. by rewrite Nat.add_0_r.
  - destruct (p x); [done|]. intros Hb. rewrite IH by done.
    by rewrite Nat.add_succ_r.
Qed.

Lemma erase_loop_scan key b (j : nat) :
  erase_loop key b =
    match chain_scan (λ e, equal_to_ key e.1) b j with
    | Some _ => Undefined
    | None => Ok ()
    end.
Proof.
  revert j. induction b as [|e b IH]; intros j; simpl; [done|].
  by destruct (equal_to_ key e.1).
Qed.

(** ** [insert], [find] and [erase] *)

Lemma index_of_Ok t key (index : N) :
  index_of t key = Ok index →
  bucket_count_ t ≠ 0 ∧ index = h_ key mod bucket_count_ t.
Proof.
  unfold index_of. destruct (N.eqb_spec (bucket_count_ t) 0); [done|].
  by intros [= <-].
Qed.

Lemma erase_Ok key t t' : erase key t = Ok t' → t' = t.
Proof.
  unfold erase. destruct (index_of t key) as [index| |]; simpl; try done.
  destruct (bucket_ref t index) as [b| |]; simpl; try done.
  destruct (erase_loop key b); simpl; try done. by intros [= <-].
Qed.

(** [erase] of a key that is in the table never returns a table: the loop
    increments the iterator of the node it has erased. *)
Lemma erase_found_undefined key t :
  contains_key key t = Ok true → erase key t = Undefined.
Proof.
  unfold contains_key, erase.
  destruct (index_of t key) as [index| |]; simpl; try done.
  destruct (bucket_ref t index) as [b| |]; simpl; try done.
  rewrite (erase_loop_scan key b 0).
  by destruct (chain_scan _ b 0).
Qed.

Lemma sum_lengths_concat l :
  sum_list (length <$> l) = length (concat l).
Proof.
  induction l as [|b l IH]; simpl; [done|]. rewrite length_app. by f_equal.
Qed.

Lemma length_concat_replace l (i : nat) b b' :
  l !! i = Some b →
  (length (concat (<[i := b']> l)) + length b =
   length (concat l) + length b')%nat.
Proof.
  intros Hi. pose proof (lookup_lt_Some _ _ _ Hi) as Hlt.
  rewrite insert_take_drop by done.
  rewrite <- (take_drop_middle l i b Hi) at 3.
  rewrite !concat_app. simpl. rewrite !length_app. lia.
Qed.

Lemma length_concat_insert l (i : nat) b e :
  l !! i = Some b →
  length (concat (<[i := b ++ [e]]> l)) = S (length (concat l)).
Proof.
  intros Hi. pose proof (length_concat_replace l i b (b ++ [e]) Hi) as Hlen.
  rewrite length_app in Hlen. simpl in Hlen. lia.
Qed.

(** What [insert] does when it returns: nothing at a key the scan of the
    chain finds, an append to the chain and one more in [count_] otherwise. *)
Lemma insert_Ok key obj t t' it :
  insert key obj t = Ok (t', it) →
  let index := h_ key mod bucket_count_ t in
  ∃ b, bucket_count_ t ≠ 0 ∧ table_ t !! N.to_nat index = Some b ∧
    ((∃ j, chain_scan (λ e, equal_to_ e.1 key) b 0 = Some j ∧
           t' = t ∧ it = Iterator index (Node index j)) ∨
     (chain_scan (λ e, equal_to_ e.1 key) b 0 = None ∧
      t' = Hashtable (<[N.to_nat index := b ++ [(key, obj)]]> (table_ t))
             (bucket_count_ t) (size_succ (count_ t)) ∧
      it = Iterator index (Node index (length b)))).
Proof.
  unfold insert. destruct (index_of t key) as [index| |] eqn:Hidx; try done.
  apply index_of_Ok in Hidx as [Hbc ->]. simpl.
  destruct (bucket_ref t _) as [b| |] eqn:Hb; simpl; try done.
  apply bucket_ref_Ok in Hb. intros Hins. exists b. split_and!; [done..|].
  destruct (chain_scan _ b 0) as [j|]; injection Hins as <- <-.
  - left. by exists j.
  - by right.
Qed.

Lemma insert_preserves_invariants key obj t t' it :
  size_invariant t → placement_invariant t → count_ t + 1 < SIZE_MOD →
  insert key obj t = Ok (t', it) →
  size_invariant t' ∧ placement_invariant t' ∧ count_ t' ≤ count_ t + 1.
Proof.
  intros Hsize Hplace Hcount Hins.
  destruct (insert_Ok _ _ _ _ _ Hins)
    as (b & Hbc & Hb & [(j & _ & -> & _)|(_ & -> & _)]).
  { split_and!; [done..|lia]. }
  unfold size_invariant, placement_invariant, count, bucket_count in *.
  simpl. rewrite size_succ_small by done. split_and!; [| |done].
  - rewrite sum_lengths_concat in *.
    rewrite (length_concat_insert _ _ b) by done. lia.
  - intros i b' e Hi He.
    destruct (decide (i = N.to_nat (h_ key mod bucket_count_ t))) as [->|Hne].
    + rewrite list_lookup_insert_eq in Hi by (by eapply lookup_lt_Some).
      injection Hi as <-. apply elem_of_app in He as [He|He].
      * by eapply Hplace.
      * apply list_elem_of_singleton in He as ->. simpl. by rewrite N2Nat.id.
    + rewrite list_lookup_insert_ne in Hi by done. by eapply Hplace.
Qed.

(** The writes of [erase] up to the increment keep the two invariants as
    well. *)
Lemma erase_entry_preserves_invariants t (index : N) b (j : nat) :
  size_invariant t → placement_invariant t → count_ t < SIZE_MOD →
  table_ t !! N.to_nat index = Some b → (j < length b)%nat →
  size_invariant (erase_entry t index b j) ∧
  placement_invariant (erase_entry t index b j) ∧
  count (erase_entry t index b j) = count t - 1.
Proof.
  intros Hsize Hplace Hcount Hb Hj.
  unfold size_invariant, placement_invariant, count, bucket_count in *.
  simpl. rewrite sum_lengths_concat in *.
  pose proof (length_concat_replace _ _ b (delete j b) Hb) as Hlen.
  rewrite length_delete in Hlen by (by apply lookup_lt_is_Some).
  rewrite size_pred_positive by lia. split_and!; [lia| |done].
  intros i b' e Hi He.
  destruct (decide (i = N.to_nat index)) as [->|Hne].
  - rewrite list_lookup_insert_eq in Hi by (by eapply lookup_lt_Some).
    injection Hi as <-. apply (Hplace _ b); [done|].
    by eapply list_subseteq_delete.
  - rewrite list_lookup_insert_ne in Hi by done. by eapply Hplace.
Qed.

Lemma hashtable_init_invariants (buckets : N) t :
  hashtable_init buckets = Ok t →
  size_invariant t ∧ placement_invariant t ∧ count_ t = 0.
Proof.
  unfold hashtable_init. destruct (buckets <=? INT_MAX); [|done].
  intros [= <-]. unfold size_invariant, placement_invariant. simpl.
  split_and!; [| |done].
  - rewrite sum_lengths_concat.
    by induction (N.to_nat buckets) as [|n IH].
  - intros i b e [-> _]%lookup_replicate He. by apply elem_of_nil in He.
Qed.

(** The constructor gives a well-formed table when it is asked for at least
    one bucket, and [insert] and [erase] keep it so. *)
Lemma hashtable_init_well_formed (buckets : N) t :
  0 < buckets → hashtable_init buckets = Ok t → well_formed t.
Proof.
  intros Hpos. unfold hashtable_init.
  destruct (N.leb_spec buckets INT_MAX) as [Hle|]; [|done].
  intros [= <-]. split; simpl.
  - rewrite length_replicate. lia.
  - done.
  - eapply N.le_lt_trans; [done|]. by vm_compute.
Qed.

Lemma insert_well_formed key obj t t' it :
  well_formed t → insert key obj t = Ok (t', it) → well_formed t'.
Proof.
  intros [Hlen Hpos Hlt] Hins.
  destruct (insert_Ok _ _ _ _ _ Hins)
    as (b & Hbc & Hb & [(j & _ & -> & _)|(_ & -> & _)]); [done|].
  split; simpl; [|done..]. by rewrite length_insert.
Qed.

Lemma run_well_formed (ops : list (operation Key T)) t t' :
  well_formed t → run ops t = Ok t' → well_formed t'.
Proof.
  revert t. induction ops as [|o ops IH]; intros t Hwf; simpl.
  - by intros [= <-].
  - destruct (apply_operation o t) as [t1| |] eqn:Hop; simpl; try done.
    apply IH. destruct o as [key obj|key]; simpl in Hop.
    + destruct (insert key obj t) as [[t2 it]| |] eqn:Hins; simpl in Hop;
        try done.
      injection Hop as ->. by eapply insert_well_formed.
    + by apply erase_Ok in Hop as ->.
Qed.

Lemma chain_scan_bound (p : hash_entry_type Key T → bool) b (j k : nat) :
  chain_scan p b j = Some k → (j ≤ k < j + length b)%nat.
Proof.
  revert j. induction b as [|e b IH]; intros j; simpl; [done|].
  destruct (p e).
  - intros [= <-]. lia.
  - intros Hk%IH. lia.
Qed.

(** A call that returns leaves in memory the table it returns. *)
Lemma memory_after_returned (o : operation Key T) t t' :
  apply_operation o t = Ok t' → memory_after o t = Some t'.
Proof.
  destruct o as [key obj|key]; simpl.
  - destruct (insert key obj t) as [[t1 it]| |]; simpl; by intros [= <-].
  - intros Ht'. pose proof (erase_Ok _ _ _ Ht') as ->. revert Ht'.
    unfold erase. destruct (index_of t key) as [index| |]; simpl; try done.
    destruct (bucket_ref t index) as [b| |]; simpl; try done.
    rewrite (erase_loop_scan key b 0). by destruct (chain_scan _ b 0).
Qed.

Lemma run_memory_returned (ops : list (operation Key T)) t t' :
  run ops t = Ok t' → run_memory ops t = Some t'.
Proof.
  revert t. induction ops as [|o ops IH]; intros t; simpl.
  - by intros [= <-].
  - destruct (apply_operation o t) as [t1| |] eqn:Hop; simpl; try done.
    rewrite (memory_after_returned _ _ _ Hop). apply IH.
Qed.

Lemma memory_after_preserves_invariants (o : operation Key T) t t' :
  size_invariant t → placement_invariant t → count_ t + 1 < SIZE_MOD →
  memory_after o t = Some t' →
  size_invariant t' ∧ placement_invariant t' ∧ count_ t' ≤ count_ t + 1.
Proof.
  intros Hsize Hplace Hcount. destruct o as [key obj|key]; simpl.
  - destruct (insert key obj t) as [[t1 it]| |] eqn:Hins; try done.
    intros [= <-]. by eapply insert_preserves_invariants.
  - destruct (index_of t key) as [index| |]; try done.
    destruct (bucket_ref t index) as [b| |] eqn:Hb; try done.
    apply bucket_ref_Ok in Hb.
    destruct (chain_scan _ b 0) as [j|] eqn:Hscan; intros [= <-].
    + apply chain_scan_bound in Hscan.
      destruct (erase_entry_preserves_invariants t index b j)
        as (Hsize' & Hplace' & Hcount'); [done|done|lia|done|lia|].
      split_and!; [done..|]. unfold count in Hcount'. lia.
    + split_and!; [done..|lia].
Qed.

Lemma run_memory_preserves_invariants
    (ops : list (operation Key T)) t t' (m : N) :
  size_invariant t → placement_invariant t →
  count_ t ≤ m → m + N.of_nat (length ops) < SIZE_MOD →
  run_memory ops t = Some t' →
  size_invariant t' ∧ placement_invariant t'.
Proof.
  revert t m. induction ops as [|o ops IH]; intros t m Hsize Hplace Hm Hlen.
  - by intros [= <-].
  - simpl. simpl in Hlen.
    destruct (memory_after o t) as [t1|] eqn:Hop; [|done].
    destruct (memory_after_preserves_invariants o t t1)
      as (Hsize1 & Hplace1 & Hcount1); [done|done|lia|done|].
    apply (IH t1 (m + 1)); [done|done|lia|lia].
Qed.

(** In particular after calls that all return. *)
Lemma run_preserves_invariants (buckets : N) (ops : list (operation Key T))
    t0 t :
  hashtable_init buckets = Ok t0 → N.of_nat (length ops) < SIZE_MOD →
  run ops t0 = Ok t →
  size_invariant t ∧ placement_invariant t.
Proof.
  intros (Hsize & Hplace & Hzero)%hashtable_init_invariants Hlen
    Hrun%run_memory_returned.
  apply (run_memory_preserves_invariants ops t0 t 0);
    [done|done|lia|lia|done].
Qed.

Lemma bucket_ref_lookup_N t (i : N) b :
  table_ t !! N.to_nat i = Some b → bucket_ref t i = Ok b.
Proof. intros Hi. rewrite <- (N2Nat.id i). by apply bucket_ref_lookup. Qed.

Lemma contains_key_false key t :
  contains_key key t = Ok false →
  let index := h_ key mod bucket_count_ t in
  ∃ b, index_of t key = Ok index ∧ table_ t !! N.to_nat index = Some b ∧
       chain_scan (λ e, equal_to_ key e.1) b 0 = None.
Proof.
  unfold contains_key.
  destruct (index_of t key) as [index| |] eqn:Hidx; try done.
  destruct (index_of_Ok _ _ _ Hidx) as [Hbc ->]. simpl.
  destruct (bucket_ref t _) as [b| |] eqn:Hb; simpl; try done.
  apply bucket_ref_Ok in Hb. intros Hscan.
  exists b. split_and!; [done..|].
  by destruct (chain_scan _ b 0).
Qed.

Lemma size_zero_all_empty t :
  size_invariant t → count t = 0 → all_empty (table_ t).
Proof.
  unfold size_invariant. intros -> Hzero.
  rewrite sum_lengths_concat in Hzero.
  induction (table_ t) as [|b l IH]; [constructor|].
  simpl in Hzero. rewrite length_app in Hzero. constructor.
  - destruct b; [done|]. simpl in Hzero. lia.
  - apply IH. lia.
Qed.

(** [load_factor()] is 0 on every table with fewer entries than buckets. *)
Lemma load_factor_below_one t :
  count_ t < bucket_count_ t → load_factor t = Ok 0%Q.
Proof.
  intros Hlt. unfold load_factor.
  destruct (N.eqb_spec (bucket_count_ t) 0); [lia|].
  by rewrite N.div_small.
Qed.

(** ** The statements *)

(** C1.  On every well-formed table whose size is the number of stored
    entries, the loop from [begin()] to [end()] by [operator++] returns after
    visiting exactly [size] chain positions, no position twice; the entries
    visited are the stored entries, bucket after bucket, so the keys visited
    are exactly the keys stored.  This holds for every distribution of the
    entries over the buckets, and whether the loop goes on with the advanced
    object or with the iterator returned. *)
Theorem traverse_visits_each_entry_once (by_value : bool) t (fuel : nat) :
  well_formed t → size_invariant t → (N.to_nat (count t) ≤ fuel)%nat →
  ∃ visited,
    traverse by_value t fuel = Some (Ok visited) ∧
    N.of_nat (length visited) = count t ∧
    NoDup visited.*1 ∧
    visited.*2 = concat (table_ t) ∧
    (∀ key, key ∈ visited.*2.*1 ↔ ∃ b obj, b ∈ table_ t ∧ (key, obj) ∈ b).
Proof.
  intros Hwf Hsize Hfuel. unfold size_invariant in Hsize.
  rewrite sum_lengths_concat in Hsize.
  exists (table_positions 0 (table_ t)). split_and!.
  - apply traverse_table_positions; [done|lia].
  - rewrite Hsize. f_equal.
    by rewrite <- (table_positions_snd 0), !length_fmap.
  - apply table_positions_NoDup.
  - apply table_positions_snd.
  - intros key. rewrite table_positions_snd. split.
    + intros ([k obj] & -> & Hin)%list_elem_of_fmap.
      apply list_elem_of_In, in_concat in Hin as (b & Hb & Hin).
      exists b, obj. by rewrite !list_elem_of_In.
    + intros (b & obj & Hb & Hin). apply list_elem_of_fmap.
      exists (key, obj). split; [done|].
      apply list_elem_of_In, in_concat. exists b. by rewrite <- !list_elem_of_In.
Qed.

(** C7.  On a well-formed table of size 0 (at least one bucket, all of them
    empty) [begin()] and [end()] both return and compare equal. *)
Theorem begin_eq_end_empty t :
  well_formed t → size_invariant t → count t = 0 →
  ∃ first last : iterator,
    begin t = Ok first ∧ end_ t = Ok last ∧ iterator_eq first last = true.
Proof.
  intros Hwf Hsize Hzero.
  pose proof (size_zero_all_empty t Hsize Hzero) as Hempty.
  eexists _, _. split_and!.
  - by apply begin_all_empty.
  - by apply end_all_empty.
  - by apply bool_decide_eq_true.
Qed.

(** C8.  Two cursors compare equal exactly when their chain positions are
    equal, whatever their bucket indices, for [iterator] and for
    [const_iterator]; two cursors at the same chain end with different bucket
    indices are equal. *)
Theorem iterator_eq_chain_position :
  (∀ a b : iterator, iterator_eq a b = true ↔ entry_ a = entry_ b) ∧
  (∀ a b : const_iterator,
     const_iterator_eq a b = true ↔ centry_ a = centry_ b) ∧
  (∀ i1 i2 k : N,
     iterator_eq (Iterator i1 (End k)) (Iterator i2 (End k)) = true ∧
     const_iterator_eq (ConstIterator i1 (End k)) (ConstIterator i2 (End k))
       = true).
Proof.
  split_and!.
  - intros a b. apply bool_decide_eq_true.
  - intros a b. apply bool_decide_eq_true.
  - intros i1 i2 k. split; by apply bool_decide_eq_true.
Qed.

(** C10.  On a well-formed table with only empty buckets [operator++] on
    [end()] returns (the scan over the empty buckets stops at
    [bucket_count()]), and both the advanced cursor and the cursor it returns
    compare equal to [end()]. *)
Theorem operator_inc_end_empty t :
  well_formed t → all_empty (table_ t) →
  ∃ last advanced returned : iterator,
    end_ t = Ok last ∧
    operator_inc t last = Ok (advanced, returned) ∧
    iterator_eq advanced last = true ∧ iterator_eq returned last = true.
Proof.
  intros Hwf Hempty. pose proof (end_all_empty t Hwf Hempty) as Hend.
  destruct (well_formed_last t Hwf) as (Hp & Hn & Hne).
  exists (Iterator 0 (End (bucket_count_ t - 1))),
    (Iterator (bucket_count t) (End (bucket_count_ t - 1))),
    (Iterator 0 (End (bucket_count_ t - 1))).
  split_and!; [done| |by apply bool_decide_eq_true..].
  unfold operator_inc. simpl.
  assert (at_ t 0 = Ok []) as ->
    by (apply (at_lookup t 0 []), all_empty_lookup; [done|lia]).
  simpl. unfold advance_bucket. simpl.
  rewrite next_bucket_empty.
  - simpl. by rewrite Hend.
  - by apply Forall_drop.
  - destruct Hwf as [Hlen _ _]. unfold bucket_count.
    rewrite <- Hlen, length_drop. lia.
Qed.

(** C5.  [erase] of a key that is not in the table returns, and the table it
    leaves is the table it was given: same size, same buckets, same
    entries. *)
Theorem erase_absent_key key t :
  contains_key key t = Ok false →
  ∃ t', erase key t = Ok t' ∧
    count t' = count t ∧ bucket_count t' = bucket_count t ∧
    table_ t' = table_ t.
Proof.
  intros (b & Hidx & Hb & Hscan)%contains_key_false.
  exists t. split; [|done]. unfold erase. rewrite Hidx. simpl.
  rewrite (bucket_ref_lookup_N _ _ _ Hb). simpl.
  by rewrite (erase_loop_scan key b 0), Hscan.
Qed.

(** C9.  In the table left in memory by the constructor and any sequence
    of fewer than [2 ^ 64] [insert] and [erase] calls, [count()] is the sum of
    the lengths of the chains and every entry is in the bucket at index
    [hash(key) mod bucket_count].  The sequences are those of [run_memory]:
    they hold the calls that return, and the [erase] calls that find their
    key, taken with what they have written by the time they reach the
    increment of the invalidated iterator. *)
Theorem reachable_invariants (buckets : N) (ops : list (operation Key T)) t0 t :
  hashtable_init buckets = Ok t0 →
  N.of_nat (length ops) < SIZE_MOD →
  run_memory ops t0 = Some t →
  size_invariant t ∧ placement_invariant t.
Proof.
  intros (Hsize & Hplace & Hzero)%hashtable_init_invariants Hlen Hrun.
  apply (run_memory_preserves_invariants ops t0 t 0);
    [done|done|lia|lia|done].
Qed.

Section key_equal.
Hypothesis equal_to_sym : ∀ a b : Key, equal_to_ a b = equal_to_ b a.
Hypothesis equal_to_refl : ∀ a : Key, equal_to_ a a = true.

(** C2.  When [find(key)] gives a cursor to an entry with value [obj0],
    [insert(key, obj1)] returns that same cursor, to the same entry; the
    table is unchanged, so [find(key)] still gives the entry with [obj0] and
    the size is the same. *)
Theorem insert_existing_key key (key0 : Key) (obj0 obj1 : T) t it :
  find key t = Ok it → deref t it = Ok (key0, obj0) →
  ∃ t' it',
    insert key obj1 t = Ok (t', it') ∧
    it' = it ∧ deref t' it' = Ok (key0, obj0) ∧
    find key t' = Ok it ∧
    table_ t' = table_ t ∧ count t' = count t.
Proof.
  intros Hfind Hderef. exists t, it. split_and!; try done.
  revert Hfind. unfold find, insert.
  destruct (index_of t key) as [index| |]; simpl; try done.
  destruct (bucket_ref t index) as [b| |]; simpl; try done.
  rewrite (chain_scan_ext (λ e, equal_to_ e.1 key) (λ e, equal_to_ key e.1))
    by (intros e; apply equal_to_sym).
  destruct (chain_scan _ b 0) as [j|]; [by intros [= <-]|].
  intros [k Hk]%end_is_End. unfold deref in Hderef. by rewrite Hk in Hderef.
Qed.

(** C6.  When [key] is not in the table and the size is below the largest
    [size_t], [insert(key, obj)] appends [(key, obj)] to the chain of bucket
    [hash(key) mod bucket_count], makes the size one more, and returns a
    cursor to the new entry; [find(key)] then gives that cursor, whose entry
    has the value [obj]. *)
Theorem insert_new_key key obj t :
  count t + 1 < SIZE_MOD → contains_key key t = Ok false →
  let index := h_ key mod bucket_count t in
  ∃ b t' it,
    table_ t !! N.to_nat index = Some b ∧
    insert key obj t = Ok (t', it) ∧
    table_ t' = <[N.to_nat index := b ++ [(key, obj)]]> (table_ t) ∧
    bucket_count t' = bucket_count t ∧
    count t' = count t + 1 ∧
    it = Iterator index (Node index (length b)) ∧
    deref t' it = Ok (key, obj) ∧
    find key t' = Ok it.
Proof.
  intros Hcount (b & Hidx & Hb & Hscan)%contains_key_false index.
  pose proof (lookup_lt_Some _ _ _ Hb) as Hlt.
  set (t' := Hashtable (<[N.to_nat index := b ++ [(key, obj)]]> (table_ t))
               (bucket_count_ t) (size_succ (count_ t))).
  assert (bucket_ref t' index = Ok (b ++ [(key, obj)])) as Hb'.
  { apply bucket_ref_lookup_N. simpl. by apply list_lookup_insert_eq. }
  exists b, t', (Iterator index (Node index (length b))).
  split_and!; try done.
  - unfold insert. rewrite Hidx. simpl.
    rewrite (bucket_ref_lookup_N _ _ _ Hb). simpl.
    rewrite (chain_scan_ext _ (λ e, equal_to_ key e.1))
      by (intros e; apply equal_to_sym).
    by rewrite Hscan.
  - unfold count. simpl. by apply size_succ_small.
  - unfold deref. simpl. rewrite Hb'. simpl.
    by rewrite (list_lookup_middle b []).
  - unfold find. unfold index_of in *. simpl. rewrite Hidx. simpl.
    change (h_ key mod bucket_count_ t) with index. rewrite Hb'. simpl.
    rewrite chain_scan_app_None by done. simpl. by rewrite equal_to_refl.
Qed.

End key_equal.

End properties.

(** * The statements on the sample tables *)

Lemma scenario_table_well_formed : well_formed scenario_table.
Proof. by split. Defined.

Lemma empty_table_well_formed : well_formed empty_table.
Proof. by split. Defined.

Lemma scenario_table_run :
  (t0 ← hashtable_init 4; run scenario_operations t0) = Ok scenario_table.
Proof. reflexivity. Qed.

(** The scenario: the two entries of bucket 1 in insertion order, then the
    entry of bucket 3; [end()] is reached after three advances. *)
Example scenario_traverse :
  traverse false scenario_table 3 =
    Some (Ok [(Node 1 0, (1, 10)); (Node 1 1, (5, 50)); (Node 3 0, (3, 30))]).
Proof. reflexivity. Qed.

Lemma traverse_visits_each_entry_once_witness :
  ∃ visited,
    traverse false scenario_table 3 = Some (Ok visited) ∧
    N.of_nat (length visited) = count scenario_table ∧
    NoDup visited.*1 ∧
    visited.*2 = concat (table_ scenario_table) ∧
    (∀ key, key ∈ visited.*2.*1 ↔
            ∃ b obj, b ∈ table_ scenario_table ∧ (key, obj) ∈ b).
Proof.
  apply (traverse_visits_each_entry_once false scenario_table 3).
  - exact scenario_table_well_formed.
  - reflexivity.
  - vm_compute. lia.
Defined.

Lemma insert_existing_key_witness :
  ∃ t' it',
    insert 5 51 scenario_table = Ok (t', it') ∧
    it' = Iterator 1 (Node 1 1) ∧ deref t' it' = Ok (5, 50) ∧
    find 5 t' = Ok (Iterator 1 (Node 1 1)) ∧
    table_ t' = table_ scenario_table ∧ count t' = count scenario_table.
Proof.
  apply (insert_existing_key N.eqb_sym 5 5 50 51 scenario_table).
  - reflexivity.
  - reflexivity.
Defined.

Lemma erase_absent_key_witness :
  ∃ t', erase 7 scenario_table = Ok t' ∧
    count t' = count scenario_table ∧
    bucket_count t' = bucket_count scenario_table ∧
    table_ t' = table_ scenario_table.
Proof. apply (erase_absent_key 7 scenario_table). reflexivity. Defined.

Lemma insert_new_key_witness :
  ∃ b t' it,
    table_ scenario_table !! 3%nat = Some b ∧
    insert 7 70 scenario_table = Ok (t', it) ∧
    table_ t' = <[3%nat := b ++ [(7, 70)]]> (table_ scenario_table) ∧
    bucket_count t' = bucket_count scenario_table ∧
    count t' = count scenario_table + 1 ∧
    it = Iterator 3 (Node 3 (length b)) ∧
    deref t' it = Ok (7, 70) ∧
    find 7 t' = Ok it.
Proof.
  exact (insert_new_key N.eqb_sym N.eqb_refl 7 70 scenario_table
           eq_refl eq_refl).
Defined.

Lemma begin_eq_end_empty_witness :
  ∃ first last : iterator,
    begin empty_table = Ok first ∧ end_ empty_table = Ok last ∧
    iterator_eq first last = true.
Proof.
  apply (begin_eq_end_empty empty_table).
  - exact empty_table_well_formed.
  - reflexivity.
  - reflexivity.
Defined.

Lemma reachable_invariants_witness :
  size_invariant (Hashtable [[]; [(1, 10)]; []; [(3, 30)]] 4 2) ∧
  placement_invariant (Hashtable [[]; [(1, 10)]; []; [(3, 30)]] 4 2).
Proof.
  apply (reachable_invariants 4 (scenario_operations ++ [Erase 5; Erase 7])
           (Hashtable [[]; []; []; []] 4 0)).
  - reflexivity.
  - reflexivity.
  - reflexivity.
Defined.

Lemma operator_inc_end_empty_witness :
  ∃ last advanced returned : iterator,
    end_ empty_table = Ok last ∧
    operator_inc empty_table last = Ok (advanced, returned) ∧
    iterator_eq advanced last = true ∧ iterator_eq returned last = true.
Proof.
  apply (operator_inc_end_empty empty_table).
  - exact empty_table_well_formed.
  - by repeat constructor.
Defined.

(** C4.  [erase(5)] on the scenario table, where the key 5 is the second
    entry of the chain of bucket 1: the body of the loop unlinks the entry and
    takes one off [count_], and the call then runs into the increment of the
    invalidated iterator instead of returning. *)
Theorem erase_present_key_undefined :
  contains_key 5 scenario_table = Ok true ∧
  find 5 scenario_table = Ok (Iterator 1 (Node 1 1)) ∧
  erase 5 scenario_table = Undefined ∧
  erase_entry scenario_table 1 [(1, 10); (5, 50)] 1 =
    Hashtable [[]; [(1, 10)]; []; [(3, 30)]] 4 2.
Proof. by split_and!. Qed.

(** C3.  On a table with one entry and four buckets [load_factor()] returns
    0, the quotient of the integer division, where the quotient of the
    documentation is 1/4. *)
Theorem load_factor_truncates :
  load_factor single_entry_table = Ok 0%Q ∧
  (load_factor_documented single_entry_table == 1 # 4)%Q ∧
  ¬ (0 == load_factor_documented single_entry_table)%Q.
Proof. by split_and!. Qed.

(** * Properties of the remaining members *)

Section members.
Context {Key T : Type} `{!Hasher Key, !KeyEqual Key}.
Implicit Types (t : hashtable Key T) (b : bucket_type Key T).
Implicit Types (l : index_table Key T) (e : hash_entry_type Key T).
Implicit Types (it : iterator) (key : Key) (obj : T).

(** ** The chain scan, again *)

(** The scan stops at the first entry that satisfies the test. *)
Lemma chain_scan_first (p : hash_entry_type Key T → bool) b (j k : nat) :
  chain_scan p b j = Some k →
  ∃ e, (j ≤ k)%nat ∧ b !! (k - j)%nat = Some e ∧ p e = true ∧
    ∀ (j' : nat) e', (j' < k - j)%nat → b !! j' = Some e' → p e' = false.
Proof.
  revert j. induction b as [|x b IH]; intros j; simpl; [done|].
  destruct (p x) eqn:Hp.
  - intros [= <-]. exists x. rewrite Nat.sub_diag. split_and!; [done..|].
    intros j' e' Hj'. lia.
  - intros (e & Hle & He & Hpe & Hfirst)%IH. exists e.
    replace (k - j)%nat with (S (k - S j)) by lia.
    split_and!; [lia|done|done|].
    intros [|j'] e' Hj'; simpl.
    + by intros [= <-].
    + apply Hfirst. lia.
Qed.

Lemma chain_scan_None (p : hash_entry_type Key T → bool) b (j : nat) :
  chain_scan p b j = None ↔ ∀ e, e ∈ b → p e = false.
Proof.
  revert j. induction b as [|x b IH]; intros j; simpl.
  - split; [|done]. intros _ e He. by apply elem_of_nil in He.
  - destruct (p x) eqn:Hp.
    + split; [done|]. intros Hall. rewrite Hall in Hp; [done|]. by left.
    + rewrite IH. split.
      * intros Hall e [->|He]%elem_of_cons; [done|by apply Hall].
      * intros Hall e He. apply Hall. by right.
Qed.

Lemma chain_scan_existsb (p : hash_entry_type Key T → bool) b (j : nat) :
  existsb p b = bool_decide (is_Some (chain_scan p b j)).
Proof.
  revert j. induction b as [|x b IH]; intros j; simpl; [done|].
  destruct (p x); simpl; [done|apply IH].
Qed.

(** On a well-formed table every key has its bucket. *)
Lemma well_formed_bucket t key :
  well_formed t →
  ∃ b, index_of t key = Ok (h_ key mod bucket_count_ t) ∧
       bucket_ref t (h_ key mod bucket_count_ t) = Ok b ∧
       at_ t (h_ key mod bucket_count_ t) = Ok b ∧
       table_ t !! N.to_nat (h_ key mod bucket_count_ t) = Some b.
Proof.
  intros [Hlen Hpos Hlt].
  assert (h_ key mod bucket_count_ t < bucket_count_ t) as Hidx
    by (apply N.mod_lt; lia).
  destruct (lookup_lt_is_Some_2 (table_ t)
              (N.to_nat (h_ key mod bucket_count_ t))) as [b Hb]; [lia|].
  exists b. split_and!; [|by apply bucket_ref_lookup_N|by apply at_lookup_N|done].
  unfold index_of. by destruct (N.eqb_spec (bucket_count_ t) 0); [lia|].
Qed.

Lemma end_not_dereferenceable t (fin : iterator) :
  end_ t = Ok fin → deref t fin = Undefined.
Proof. intros [i Hi]%end_is_End. unfold deref. by rewrite Hi. Qed.

(** ** The constructor *)

(** X1.  Asked for at least one and at most [INT_MAX] buckets, the
    constructor returns a well-formed table with that many buckets, all of
    them empty, and size 0; in it no key is contained, [find] gives [end()]
    for every key and [at(key)] dereferences that [end()]. *)
Theorem hashtable_init_empty (buckets : N) :
  0 < buckets → buckets ≤ INT_MAX →
  ∃ t : hashtable Key T,
    hashtable_init buckets = Ok t ∧
    well_formed t ∧ bucket_count t = buckets ∧ count t = 0 ∧
    all_empty (table_ t) ∧
    ∀ key, contains_key key t = Ok false ∧ find key t = end_ t ∧
           at_key key t = Undefined.
Proof.
  intros Hpos Hmax.
  set (t := Hashtable (Key:=Key) (T:=T) (replicate (N.to_nat buckets) [])
              buckets 0).
  assert (hashtable_init buckets = Ok t) as Hinit.
  { unfold hashtable_init. by destruct (N.leb_spec buckets INT_MAX); [|lia]. }
  pose proof (hashtable_init_well_formed buckets t Hpos Hinit) as Hwf.
  assert (all_empty (table_ t)) as Hempty by (by apply Forall_replicate).
  exists t. split_and!; try done.
  clearbody t. intros key. destruct (well_formed_bucket t key Hwf) as (b & Hidx & Hb & _ & Hl).
  assert (b = []) as ->.
  { eapply Forall_lookup_1 in Hempty; [|done]. done. }
  assert (find key t = end_ t) as Hfind.
  { unfold find. rewrite Hidx. simpl. by rewrite Hb. }
  split_and!; [|done|].
  - unfold contains_key. rewrite Hidx. simpl. by rewrite Hb.
  - unfold at_key. rewrite Hfind.
    destruct (end_returns t Hwf) as [fin Hfin]. rewrite Hfin. simpl.
    by rewrite (end_not_dereferenceable _ _ Hfin).
Qed.

(** X2.  The constructor does not refuse zero buckets: it returns a table
    without buckets, on which every member that hashes a key divides by zero,
    [load_factor()] does too, and [begin()], [end()], [cbegin()] and [cend()]
    leave through [std::out_of_range].  Asked for more than [INT_MAX] buckets
    it overflows its [int] loop counter. *)
Theorem hashtable_init_edge_cases :
  (∃ t : hashtable Key T,
     hashtable_init 0 = Ok t ∧
     (∀ key obj,
        insert key obj t = Undefined ∧ find key t = Undefined ∧
        erase key t = Undefined ∧ contains_key key t = Undefined ∧
        at_key key t = Undefined) ∧
     load_factor t = Undefined ∧
     begin t = OutOfRange ∧ end_ t = OutOfRange ∧
     cbegin t = OutOfRange ∧ cend t = OutOfRange) ∧
  (∀ buckets, INT_MAX < buckets →
     hashtable_init (Key:=Key) (T:=T) buckets = Undefined).
Proof.
  split.
  - eexists. split; [reflexivity|]. by split_and!.
  - intros buckets Hlt. unfold hashtable_init.
    by destruct (N.leb_spec buckets INT_MAX); [lia|].
Qed.

(** ** Lookup *)

(** X3.  On a well-formed table [find] and [contains_key] return for every
    key, and [contains_key(key)] is [find(key) != end()]. *)
Theorem contains_key_find key t :
  well_formed t →
  ∃ (it fin : iterator),
    find key t = Ok it ∧ end_ t = Ok fin ∧
    contains_key key t = Ok (iterator_ne it fin).
Proof.
  intros Hwf. destruct (well_formed_bucket t key Hwf) as (b & Hidx & Hb & _).
  destruct (end_returns t Hwf) as [fin Hfin].
  unfold find, contains_key. rewrite Hidx. simpl. rewrite Hb. simpl.
  destruct (chain_scan _ b 0) as [j|].
  - eexists _, fin. split_and!; [done..|]. f_equal. symmetry.
    destruct (end_is_End _ _ Hfin) as [k Hk].
    unfold iterator_ne, iterator_eq. simpl. rewrite Hk.
    apply negb_true_iff. by apply bool_decide_eq_false.
  - exists fin, fin. split_and!; [done..|]. f_equal. symmetry.
    unfold iterator_ne, iterator_eq. apply negb_false_iff.
    by apply bool_decide_eq_true.
Qed.

(** X4.  A cursor that [find(key)] returns and that can be dereferenced is
    at bucket [hash(key) mod bucket_count], and its entry is the first of that
    chain whose key compares equal to [key]. *)
Theorem find_first_match key t it e :
  find key t = Ok it → deref t it = Ok e →
  index_ it = h_ key mod bucket_count t ∧
  equal_to_ key e.1 = true ∧
  ∃ b (j : nat),
    table_ t !! N.to_nat (index_ it) = Some b ∧
    entry_ it = Node (index_ it) j ∧ b !! j = Some e ∧
    ∀ (j' : nat) e', (j' < j)%nat → b !! j' = Some e' →
                     equal_to_ key e'.1 = false.
Proof.
  unfold find. destruct (index_of t key) as [index| |] eqn:Hidx; try done.
  apply index_of_Ok in Hidx as [Hbc ->]. simpl.
  destruct (bucket_ref t _) as [b| |] eqn:Hb; simpl; try done.
  destruct (chain_scan _ b 0) as [j|] eqn:Hscan.
  - intros [= <-]. unfold deref. simpl. rewrite Hb. simpl. intros He.
    apply chain_scan_first in Hscan as (e0 & _ & He0 & Hp & Hfirst).
    rewrite Nat.sub_0_r in He0, Hfirst. rewrite He0 in He. injection He as ->.
    split_and!; [done..|]. exists b, j. split_and!; try done.
    by apply bucket_ref_Ok.
  - intros Hend Hderef. by rewrite (end_not_dereferenceable _ _ Hend) in Hderef.
Qed.

(** X5.  On a well-formed table [at(key)] and [operator[](key)] give the
    value of an entry of the key's bucket whose key compares equal when
    [contains_key(key)] holds; when it does not they dereference [end()],
    for which no behaviour is defined. *)
Theorem at_key_contains key t :
  well_formed t →
  ∃ c : bool,
    contains_key key t = Ok c ∧
    if c then
      ∃ b e, table_ t !! N.to_nat (h_ key mod bucket_count t) = Some b ∧
             e ∈ b ∧ equal_to_ key e.1 = true ∧
             at_key key t = Ok e.2 ∧ subscript_key key t = Ok e.2
    else at_key key t = Undefined ∧ subscript_key key t = Undefined.
Proof.
  intros Hwf. destruct (well_formed_bucket t key Hwf) as (b & Hidx & Hb & _ & Hl).
  destruct (end_returns t Hwf) as [fin Hfin].
  unfold subscript_key, at_key, find, contains_key.
  rewrite Hidx. simpl. rewrite Hb. simpl.
  destruct (chain_scan _ b 0) as [j|] eqn:Hscan.
  - exists true. split; [done|].
    apply chain_scan_first in Hscan as (e & _ & He & Hp & _).
    rewrite Nat.sub_0_r in He. exists b, e. simpl.
    unfold deref. simpl. rewrite Hb. simpl. rewrite He. simpl.
    split_and!; try done. by eapply list_elem_of_lookup_2.
  - exists false. split; [done|]. rewrite Hfin. simpl.
    by rewrite (end_not_dereferenceable _ _ Hfin).
Qed.

(** X6.  On a well-formed table [at(index)] and [operator[](index)] give
    bucket [index] for every index below [bucket_count()] and leave through
    [std::out_of_range] for every other index; the bucket at index
    [hash(key) mod bucket_count] holds an entry whose key compares equal to
    [key] exactly when [contains_key(key)]. *)
Theorem at_index_bounds t :
  well_formed t →
  (∀ index, index < bucket_count t →
     ∃ b, table_ t !! N.to_nat index = Some b ∧
          at_ t index = Ok b ∧ subscript_index t index = Ok b) ∧
  (∀ index, bucket_count t ≤ index →
     at_ t index = OutOfRange ∧ subscript_index t index = OutOfRange) ∧
  (∀ key, ∃ b,
     at_ t (h_ key mod bucket_count t) = Ok b ∧
     contains_key key t = Ok (existsb (λ e, equal_to_ key e.1) b)).
Proof.
  intros Hwf. split_and!.
  - intros index Hlt. destruct Hwf as [Hlen _ _]. unfold bucket_count in Hlt.
    destruct (lookup_lt_is_Some_2 (table_ t) (N.to_nat index)) as [b Hb]; [lia|].
    exists b. unfold subscript_index. rewrite (at_lookup_N _ _ _ Hb). done.
  - intros index Hge. destruct Hwf as [Hlen _ _]. unfold bucket_count in Hge.
    unfold subscript_index. rewrite at_out_of_range; [done|].
    apply lookup_ge_None. lia.
  - intros key.
    destruct (well_formed_bucket t key Hwf) as (b & Hidx & Hb & Hat & _).
    exists b. split; [done|]. unfold contains_key. rewrite Hidx. simpl.
    rewrite Hb. simpl. rewrite (chain_scan_existsb _ b 0).
    by destruct (chain_scan _ b 0).
Qed.

(** X7.  [erase(key)] returns exactly when [contains_key(key)] is false, and
    then with the table as it was; when [contains_key(key)] is true it has
    no defined result. *)
Theorem erase_returns_iff_absent key t :
  (∀ t', erase key t = Ok t' ↔ contains_key key t = Ok false ∧ t' = t) ∧
  (contains_key key t = Ok true → erase key t = Undefined).
Proof.
  split; [|apply erase_found_undefined].
  intros t'. unfold erase, contains_key.
  destruct (index_of t key) as [index| |]; simpl; try by split; [|intros []].
  destruct (bucket_ref t index) as [b| |]; simpl; try by split; [|intros []].
  rewrite (erase_loop_scan key b 0).
  destruct (chain_scan _ b 0); simpl.
  - by split; [|intros []].
  - split; [by intros [= <-]|by intros [_ ->]].
Qed.

(** ** [insert] and the other entries *)

Lemma chain_scan_app_Some (p : hash_entry_type Key T → bool) b b' (j k : nat) :
  chain_scan p b j = Some k → chain_scan p (b ++ b') j = Some k.
Proof.
  revert j. induction b as [|x b IH]; intros j; simpl; [done|].
  destruct (p x); [done|apply IH].
Qed.

(** What [find] has done when its cursor can be dereferenced. *)
Lemma find_dereferenceable key t it e :
  find key t = Ok it → deref t it = Ok e →
  let index := h_ key mod bucket_count_ t in
  ∃ b (j : nat),
    bucket_count_ t ≠ 0 ∧ table_ t !! N.to_nat index = Some b ∧
    chain_scan (λ e, equal_to_ key e.1) b 0 = Some j ∧
    it = Iterator index (Node index j) ∧ b !! j = Some e.
Proof.
  unfold find. destruct (index_of t key) as [index| |] eqn:Hidx; try done.
  apply index_of_Ok in Hidx as [Hbc ->]. simpl.
  destruct (bucket_ref t _) as [b| |] eqn:Hb; simpl; try done.
  destruct (chain_scan _ b 0) as [j|] eqn:Hscan.
  - intros [= <-]. unfold deref. simpl. rewrite Hb. simpl. intros He.
    exists b, j. split_and!; try done; [by apply bucket_ref_Ok|].
    by destruct (b !! j); simplify_eq/=.
  - intros Hend Hderef. by rewrite (end_not_dereferenceable _ _ Hend) in Hderef.
Qed.

(** The table after an [insert] that appends. *)
Lemma bucket_ref_appended t (index index' : N) b x (c : N) :
  table_ t !! N.to_nat index = Some b →
  bucket_ref
    (Hashtable (<[N.to_nat index := b ++ [x]]> (table_ t)) (bucket_count_ t) c)
    index' =
  if decide (index' = index) then Ok (b ++ [x]) else bucket_ref t index'.
Proof.
  intros Hb. pose proof (lookup_lt_Some _ _ _ Hb) as Hlt.
  case_decide as Heq.
  - subst. apply bucket_ref_lookup_N. simpl. by apply list_lookup_insert_eq.
  - unfold bucket_ref. simpl. rewrite length_insert.
    rewrite list_lookup_insert_ne; [done|]. lia.
Qed.

(** X8.  [insert] leaves every other entry where it is: a cursor that
    [find] gave for any key before the call, and the entry at it, are what
    [find] gives for that key after the call. *)
Theorem insert_keeps_found_entries key obj key' t t' it it' e' :
  find key' t = Ok it' → deref t it' = Ok e' →
  insert key obj t = Ok (t', it) →
  find key' t' = Ok it' ∧ deref t' it' = Ok e'.
Proof.
  intros Hfind Hderef Hins.
  destruct (insert_Ok _ _ _ _ _ Hins)
    as (b & Hbc & Hb & [(j & _ & -> & _)|(_ & -> & _)]); [done|].
  destruct (find_dereferenceable _ _ _ _ Hfind Hderef)
    as (b' & j' & _ & Hb' & Hscan' & -> & He').
  unfold find, deref, index_of. simpl.
  destruct (N.eqb_spec (bucket_count_ t) 0); [done|]. simpl.
  rewrite (bucket_ref_appended _ _ _ _ _ _ Hb).
  case_decide as Heq; simpl.
  - rewrite Heq in Hb'. simplify_eq.
    rewrite (chain_scan_app_Some _ _ _ _ _ Hscan'). split; [done|].
    rewrite lookup_app_l by (by eapply lookup_lt_Some). by rewrite He'.
  - rewrite (bucket_ref_lookup_N _ _ _ Hb'). simpl. rewrite Hscan'.
    split; [done|]. by rewrite He'.
Qed.

(** X9.  [insert(key, obj)] changes [contains_key] for no key that does not
    compare equal to [key]. *)
Theorem insert_contains_other key obj key' t t' it :
  equal_to_ key' key = false →
  insert key obj t = Ok (t', it) →
  contains_key key' t' = contains_key key' t.
Proof.
  intros Hne Hins.
  destruct (insert_Ok _ _ _ _ _ Hins)
    as (b & Hbc & Hb & [(j & _ & -> & _)|(_ & -> & _)]); [done|].
  unfold contains_key, index_of. simpl.
  destruct (N.eqb_spec (bucket_count_ t) 0); [done|]. simpl.
  rewrite (bucket_ref_appended _ _ _ _ _ _ Hb).
  case_decide as Heq; [|done]. simpl.
  rewrite Heq, (bucket_ref_lookup_N _ _ _ Hb). simpl.
  destruct (chain_scan (λ e, equal_to_ key' e.1) b 0) as [j|] eqn:Hscan.
  - by rewrite (chain_scan_app_Some _ _ _ _ _ Hscan).
  - rewrite (chain_scan_app_None _ _ _ _ Hscan). simpl. by rewrite Hne.
Qed.

(** ** Invariants of the tables in memory *)

Lemma insert_unique_keys key obj t t' it :
  unique_keys t → insert key obj t = Ok (t', it) → unique_keys t'.
Proof.
  intros Huniq Hins.
  destruct (insert_Ok _ _ _ _ _ Hins)
    as (b & Hbc & Hb & [(j & _ & -> & _)|(Hscan & -> & _)]); [done|].
  intros i j1 j2 b' e1 e2 Hi Hj1 Hj2 Hlt. simpl in Hi.
  destruct (decide (i = N.to_nat (h_ key mod bucket_count_ t))) as [->|Hne].
  - rewrite list_lookup_insert_eq in Hi by (by eapply lookup_lt_Some).
    injection Hi as <-.
    pose proof (lookup_lt_Some _ _ _ Hj2) as Hlen. rewrite length_app in Hlen.
    simpl in Hlen.
    rewrite lookup_app_l in Hj1 by lia.
    destruct (decide (j2 < length b)%nat).
    + rewrite lookup_app_l in Hj2 by done. by eapply (Huniq _ j1 j2).
    + rewrite lookup_app_r in Hj2 by lia.
      replace (j2 - length b)%nat with 0%nat in Hj2 by lia.
      injection Hj2 as <-. simpl.
      apply (proj1 (chain_scan_None _ _ _) Hscan e1).
      by eapply list_elem_of_lookup_2.
  - rewrite list_lookup_insert_ne in Hi by done. by eapply (Huniq _ j1 j2).
Qed.

Lemma erase_entry_unique_keys t (index : N) b (j : nat) :
  unique_keys t → table_ t !! N.to_nat index = Some b →
  unique_keys (erase_entry t index b j).
Proof.
  intros Huniq Hb i j1 j2 b' e1 e2 Hi Hj1 Hj2 Hlt. simpl in Hi.
  destruct (decide (i = N.to_nat index)) as [->|Hne].
  - rewrite list_lookup_insert_eq in Hi by (by eapply lookup_lt_Some).
    injection Hi as <-.
    rewrite list_lookup_delete in Hj1, Hj2.
    repeat case_decide; eapply (Huniq _ _ _ b); try done; lia.
  - rewrite list_lookup_insert_ne in Hi by done. by eapply (Huniq _ j1 j2).
Qed.

Lemma memory_after_unique_keys (o : operation Key T) t t' :
  unique_keys t → memory_after o t = Some t' → unique_keys t'.
Proof.
  intros Huniq. destruct o as [key obj|key]; simpl.
  - destruct (insert key obj t) as [[t1 it]| |] eqn:Hins; try done.
    intros [= <-]. by eapply insert_unique_keys.
  - destruct (index_of t key) as [index| |]; try done.
    destruct (bucket_ref t index) as [b| |] eqn:Hb; try done.
    apply bucket_ref_Ok in Hb.
    destruct (chain_scan _ b 0) as [j|]; intros [= <-]; [|done].
    by apply erase_entry_unique_keys.
Qed.

(** X10.  In the table left in memory by the constructor and any sequence
    of [insert] and [erase] calls, no entry of a chain has a key that compares
    equal to the key of an entry further on in that chain. *)
Theorem reachable_unique_keys (buckets : N) (ops : list (operation Key T))
    t0 t :
  hashtable_init buckets = Ok t0 →
  run_memory ops t0 = Some t →
  unique_keys t.
Proof.
  intros Hinit. assert (unique_keys t0) as Huniq.
  { unfold hashtable_init in Hinit. destruct (buckets <=? INT_MAX); [|done].
    injection Hinit as <-. intros i j1 j2 b e1 e2 [-> _]%lookup_replicate.
    by rewrite lookup_nil. }
  clear Hinit. revert t0 Huniq.
  induction ops as [|o ops IH]; intros t0 Huniq; simpl.
  - by intros [= <-].
  - destruct (memory_after o t0) as [t1|] eqn:Hop; [|done].
    apply IH. by eapply memory_after_unique_keys.
Qed.

Lemma memory_after_well_formed (o : operation Key T) t :
  well_formed t →
  ∃ t', memory_after o t = Some t' ∧ well_formed t' ∧
        bucket_count t' = bucket_count t.
Proof.
  intros Hwf. destruct o as [key obj|key]; simpl.
  - destruct (well_formed_bucket t key Hwf) as (b & Hidx & Hb & _).
    destruct (insert key obj t) as [[t1 it]| |] eqn:Hins.
    + exists t1. split_and!; [done|by eapply insert_well_formed|].
      destruct (insert_Ok _ _ _ _ _ Hins)
        as (? & _ & _ & [(? & _ & -> & _)|(_ & -> & _)]); done.
    + revert Hins. unfold insert. rewrite Hidx. simpl. rewrite Hb. simpl.
      by destruct (chain_scan _ b 0).
    + revert Hins. unfold insert. rewrite Hidx. simpl. rewrite Hb. simpl.
      by destruct (chain_scan _ b 0).
  - destruct (well_formed_bucket t key Hwf) as (b & Hidx & Hb & _).
    rewrite Hidx, Hb. destruct (chain_scan _ b 0) as [j|].
    + eexists. split_and!; [done| |done]. destruct Hwf as [Hlen Hpos Hlt].
      split; simpl; [|done..]. by rewrite length_insert.
    + by exists t.
Qed.

(** X11.  The bucket count is fixed: on the table the constructor builds
    with at least one bucket, every sequence of [insert] and [erase] calls
    gets to the bucket of its key in every call, and leaves in memory a
    well-formed table with the bucket count of the constructor. *)
Theorem reachable_well_formed (buckets : N) (ops : list (operation Key T)) t0 :
  0 < buckets → hashtable_init buckets = Ok t0 →
  ∃ t, run_memory ops t0 = Some t ∧ well_formed t ∧ bucket_count t = buckets.
Proof.
  intros Hpos Hinit.
  pose proof (hashtable_init_well_formed _ _ Hpos Hinit) as Hwf.
  assert (bucket_count t0 = buckets) as <-.
  { unfold hashtable_init in Hinit. destruct (buckets <=? INT_MAX); [|done].
    by injection Hinit as <-. }
  clear Hinit Hpos. revert t0 Hwf.
  induction ops as [|o ops IH]; intros t0 Hwf; simpl.
  - by exists t0.
  - destruct (memory_after_well_formed o t0 Hwf) as (t1 & -> & Hwf1 & <-).
    by apply IH.
Qed.

Section hash_consistent.
Hypothesis equal_hash : ∀ a b : Key, equal_to_ a b = true → h_ a = h_ b.

(** X12.  When keys that compare equal hash alike, the table left in memory
    by the constructor and fewer than [2 ^ 64] [insert] and [erase] calls has
    no two entries in different buckets whose keys compare equal. *)
Theorem reachable_unique_across_buckets (buckets : N)
    (ops : list (operation Key T)) t0 t (i1 i2 : nat) b1 b2 e1 e2 :
  hashtable_init buckets = Ok t0 →
  N.of_nat (length ops) < SIZE_MOD →
  run_memory ops t0 = Some t →
  table_ t !! i1 = Some b1 → table_ t !! i2 = Some b2 →
  e1 ∈ b1 → e2 ∈ b2 → i1 ≠ i2 →
  equal_to_ e1.1 e2.1 = false.
Proof.
  intros (Hsize & Hplace & Hzero)%hashtable_init_invariants Hlen Hrun
    Hb1 Hb2 He1 He2 Hne.
  destruct (run_memory_preserves_invariants ops t0 t 0) as [_ Hplace'];
    [done|done|lia|lia|done|].
  pose proof (Hplace' _ _ _ Hb1 He1) as H1.
  pose proof (Hplace' _ _ _ Hb2 He2) as H2.
  destruct (equal_to_ e1.1 e2.1) eqn:Heq; [|done].
  apply equal_hash in Heq. rewrite Heq in H1. lia.
Qed.

End hash_consistent.

Section key_equal_laws.
Hypothesis equal_to_sym : ∀ a b : Key, equal_to_ a b = equal_to_ b a.
Hypothesis equal_to_refl : ∀ a : Key, equal_to_ a a = true.

(** X13.  The cursor that [insert(key, obj)] returns is the cursor that
    [find(key)] gives afterwards; its entry has a key that compares equal to
    [key], and [at(key)] gives the value of that entry: [obj] when the key was
    not contained before, the stored value otherwise. *)
Theorem insert_then_find key obj t t' it :
  insert key obj t = Ok (t', it) →
  find key t' = Ok it ∧
  ∃ e, deref t' it = Ok e ∧ equal_to_ key e.1 = true ∧
       at_key key t' = Ok e.2 ∧
       (contains_key key t = Ok false → e = (key, obj)) ∧
       (contains_key key t = Ok true → t' = t ∧ at_key key t = Ok e.2).
Proof.
  intros Hins.
  destruct (insert_Ok _ _ _ _ _ Hins)
    as (b & Hbc & Hb & [(j & Hscan & -> & ->)|(Hscan & -> & ->)]).
  - rewrite (chain_scan_ext _ (λ e, equal_to_ key e.1)) in Hscan
      by (intros e; apply equal_to_sym).
    assert (find key t = Ok (Iterator (h_ key mod bucket_count_ t)
                               (Node (h_ key mod bucket_count_ t) j))) as Hfind.
    { unfold find, index_of.
      destruct (N.eqb_spec (bucket_count_ t) 0); [done|]. simpl.
      rewrite (bucket_ref_lookup_N _ _ _ Hb). simpl. by rewrite Hscan. }
    split; [done|].
    destruct (chain_scan_first _ _ _ _ Hscan) as (e & _ & He & Hp & _).
    rewrite Nat.sub_0_r in He. exists e.
    assert (deref t (Iterator (h_ key mod bucket_count_ t)
                       (Node (h_ key mod bucket_count_ t) j)) = Ok e) as Hderef.
    { unfold deref. simpl. rewrite (bucket_ref_lookup_N _ _ _ Hb). simpl.
      by rewrite He. }
    assert (at_key key t = Ok e.2) as Hat.
    { unfold at_key. rewrite Hfind. simpl. by rewrite Hderef. }
    split_and!; try done.
    unfold contains_key, index_of.
    destruct (N.eqb_spec (bucket_count_ t) 0); [done|]. simpl.
    rewrite (bucket_ref_lookup_N _ _ _ Hb). simpl. by rewrite Hscan.
  - rewrite (chain_scan_ext _ (λ e, equal_to_ key e.1)) in Hscan
      by (intros e; apply equal_to_sym).
    set (index := h_ key mod bucket_count_ t).
    set (t' := Hashtable _ _ _).
    assert (bucket_ref t' index = Ok (b ++ [(key, obj)])) as Hb'.
    { unfold t'. rewrite (bucket_ref_appended _ _ _ _ _ _ Hb).
      by rewrite decide_True. }
    assert (find key t' = Ok (Iterator index (Node index (length b)))) as Hfind.
    { unfold find, index_of. simpl.
      destruct (N.eqb_spec (bucket_count_ t) 0); [done|]. simpl.
      fold index. rewrite Hb'. simpl.
      rewrite (chain_scan_app_None _ _ _ _ Hscan). simpl.
      by rewrite equal_to_refl. }
    assert (deref t' (Iterator index (Node index (length b))) = Ok (key, obj))
      as Hderef.
    { unfold deref. simpl. rewrite Hb'. simpl.
      by rewrite (list_lookup_middle b []). }
    split; [done|]. exists (key, obj). split_and!; try done.
    + unfold at_key. rewrite Hfind. simpl. by rewrite Hderef.
    + unfold contains_key, index_of.
      destruct (N.eqb_spec (bucket_count_ t) 0); [done|]. simpl.
      rewrite (bucket_ref_lookup_N _ _ _ Hb). simpl.
      by rewrite Hscan.
Qed.

End key_equal_laws.

Section key_equal_reflexive.
Hypothesis equal_to_refl : ∀ a : Key, equal_to_ a a = true.

(** X14.  [insert] with a key that an [insert] has just been called with
    changes nothing and returns the same cursor, whatever value it is given:
    the first value stays. *)
Theorem insert_twice key obj1 obj2 t t1 it :
  insert key obj1 t = Ok (t1, it) →
  insert key obj2 t1 = Ok (t1, it).
Proof.
  intros Hins.
  destruct (insert_Ok _ _ _ _ _ Hins)
    as (b & Hbc & Hb & [(j & Hscan & -> & ->)|(Hscan & -> & ->)]).
  - unfold insert, index_of.
    destruct (N.eqb_spec (bucket_count_ t) 0); [done|]. simpl.
    rewrite (bucket_ref_lookup_N _ _ _ Hb). simpl. by rewrite Hscan.
  - unfold insert, index_of. simpl.
    destruct (N.eqb_spec (bucket_count_ t) 0); [done|]. simpl.
    rewrite (bucket_ref_appended _ _ _ _ _ _ Hb), decide_True by done. simpl.
    rewrite (chain_scan_app_None _ _ _ _ Hscan). simpl.
    by rewrite equal_to_refl.
Qed.

End key_equal_reflexive.

(** ** The cursors at the two ends *)

(** X15.  From the last entry of the last non-empty chain [operator++]
    returns [end()] and leaves the object equal to it, with [index_] at
    [bucket_count()]; postfix [operator++] leaves the same object and returns
    the cursor as it was.  Neither the object nor [end()] can be dereferenced,
    and advancing once more fails: on the object through [std::out_of_range],
    on [end()] by incrementing a list iterator that is at its chain's end. *)
Theorem operator_inc_past_last t l d e l1 :
  well_formed t →
  table_ t = l ++ (d ++ [e]) :: l1 → all_empty l1 →
  let last := Iterator (N.of_nat (length l))
                (Node (N.of_nat (length l)) (length d)) in
  ∃ advanced returned : iterator,
    deref t last = Ok e ∧
    operator_inc t last = Ok (advanced, returned) ∧
    operator_inc_post t last = Ok (advanced, last) ∧
    end_ t = Ok returned ∧ iterator_eq advanced returned = true ∧
    index_ advanced = bucket_count t ∧
    deref t advanced = Undefined ∧ deref t returned = Undefined ∧
    operator_inc t advanced = OutOfRange ∧
    operator_inc t returned = Undefined.
Proof.
  intros Hwf Ht Hl1 last.
  pose proof (operator_inc_last t l d e l1 Hwf Ht Hl1) as Hinc.
  pose proof (end_last_chain t l d e l1 Hwf Ht Hl1) as Hend.
  assert (table_ t !! length l = Some (d ++ [e])) as Hi
    by (rewrite Ht; apply list_lookup_middle; done).
  simpl in Hinc. eexists _, _. split_and!; try done.
  - unfold deref. simpl. rewrite (bucket_ref_lookup _ _ _ Hi). simpl.
    by rewrite list_lookup_middle.
  - unfold operator_inc_post. fold last in Hinc. by rewrite Hinc.
  - by apply bool_decide_eq_true.
  - unfold operator_inc. simpl. rewrite at_out_of_range; [done|].
    apply lookup_ge_None. destruct Hwf as [Hlen _ _]. unfold bucket_count. lia.
  - unfold operator_inc. simpl. rewrite (at_lookup _ _ _ Hi). simpl.
    by destruct (d ++ [e]) eqn:Hde; [destruct d|].
Qed.

(** X16.  On a well-formed table that holds an entry, [begin()] returns a
    cursor that differs from [end()] and dereferences to the first entry of
    the first non-empty bucket. *)
Theorem begin_first_entry t x rest :
  well_formed t → concat (table_ t) = x :: rest →
  ∃ it fin : iterator,
    begin t = Ok it ∧ deref t it = Ok x ∧
    end_ t = Ok fin ∧ iterator_ne it fin = true.
Proof.
  intros Hwf Hconcat.
  destruct (first_nonempty (table_ t)) as [Hall|(l1 & e & b & l2 & Ht & Hl1)].
  - exfalso. revert Hconcat. clear Hwf.
    induction Hall as [|y l -> _ IH]; [done|]. apply IH.
  - assert (concat l1 = []) as Hnil.
    { clear Ht. induction Hl1 as [|y l -> _ IH]; [done|]. apply IH. }
    rewrite Ht, concat_app, Hnil in Hconcat. simpl in Hconcat.
    injection Hconcat as -> _.
    destruct (end_returns t Hwf) as [fin Hfin].
    exists (Iterator (N.of_nat (length l1)) (Node (N.of_nat (length l1)) 0)), fin.
    split_and!; [by eapply begin_first_nonempty| |done|].
    + unfold deref. simpl.
      rewrite (bucket_ref_lookup t (length l1) (x :: b))
        by (rewrite Ht; by apply list_lookup_middle).
      done.
    + destruct (end_is_End _ _ Hfin) as [k Hk].
      unfold iterator_ne, iterator_eq. simpl. rewrite Hk.
      apply negb_true_iff. by apply bool_decide_eq_false.
Qed.

(** ** The [const] members *)








(** ** Assignment *)

(** X18.  Assigning a well-formed table gives a table equal to it in its
    buckets, its bucket count and its size, whatever the assigned-to table
    held; assigning a table to itself leaves it as it is. *)
Theorem operator_assign_copies (this rhs : hashtable Key T) :
  well_formed rhs →
  operator_assign this rhs false = Ok rhs ∧
  operator_assign this this true = Ok this.
Proof.
  intros [Hlen Hpos Hlt]. split; [|done]. unfold operator_assign.
  destruct (N.leb_spec (N.of_nat (length (table_ rhs))) (bucket_count_ rhs));
    [|lia].
  replace (N.to_nat (bucket_count_ rhs) - length (table_ rhs))%nat with 0%nat
    by lia.
  simpl. rewrite app_nil_r. by destruct rhs.
Qed.

(** ** Advancing from any entry *)

Lemma split_at_entry {A} (b : list A) (j : nat) :
  (j < length b)%nat →
  ∃ d x r, b = d ++ x :: r ∧ length d = j.
Proof.
  intros Hj. destruct (lookup_lt_is_Some_2 b j Hj) as [x Hx].
  exists (take j b), x, (drop (S j) b). split.
  - by rewrite take_drop_middle.
  - rewrite length_take. lia.
Qed.

(** X19.  On a well-formed table [operator++] returns from every cursor at
    a stored entry, and what it leaves is again a cursor at a stored entry,
    which it also returns, or a cursor equal to [end()] while it returns
    [end()]. *)
Theorem operator_inc_from_entry t it :
  well_formed t → at_entry t it →
  ∃ advanced returned : iterator,
    operator_inc t it = Ok (advanced, returned) ∧
    ((at_entry t advanced ∧ returned = advanced) ∨
     (end_ t = Ok returned ∧ iterator_eq advanced returned = true)).
Proof.
  intros Hwf (b & j & Hb & Hentry & Hj). destruct it as [index entry].
  simpl in *. subst entry.
  destruct (split_at_entry b j Hj) as (d & x & r & -> & <-).
  destruct (split_at_entry (table_ t) (N.to_nat index))
    as (l & b0 & l' & Ht & Hlen); [by eapply lookup_lt_Some|].
  assert (index = N.of_nat (length l)) as -> by lia.
  rewrite Ht, Nat2N.id, list_lookup_middle in Hb by done.
  injection Hb as ->.
  assert (table_ t !! length l = Some (d ++ x :: r)) as Hb
    by (rewrite Ht; by apply list_lookup_middle).
  destruct r as [|x' r].
  - destruct (first_nonempty l') as [Hl'|(l1 & e1 & b1 & l2 & Hl' & Hl1)].
    + pose proof (operator_inc_last t l d x l' Hwf Ht Hl') as Hinc.
      simpl in Hinc. eexists _, _. split; [done|]. right.
      split; [by eapply end_last_chain|by apply bool_decide_eq_true].
    + rewrite Hl' in Ht.
      pose proof (operator_inc_next_bucket t l d x l1 e1 b1 l2 Hwf Ht Hl1)
        as Hinc.
      simpl in Hinc. eexists _, _. split; [done|]. left. split; [|done].
      exists (e1 :: b1), 0%nat. simpl. rewrite Nat2N.id.
      split_and!; [|done|lia]. rewrite Ht.
      replace (l ++ (d ++ [x]) :: l1 ++ (e1 :: b1) :: l2)
        with ((l ++ (d ++ [x]) :: l1) ++ (e1 :: b1) :: l2)
        by (by rewrite <- app_assoc).
      by apply list_lookup_middle.
  - pose proof (operator_inc_within t (length l) (length d) _ Hb) as Hinc.
    rewrite Hinc by (rewrite length_app; simpl; lia).
    eexists _, _. split; [done|]. left. split; [|done].
    exists (d ++ x :: x' :: r), (S (length d)). simpl. rewrite Nat2N.id.
    split_and!; [done..|]. rewrite length_app. simpl. lia.
Qed.

(** ** The load factor *)


End members.

(** * The properties of the remaining members on the sample tables *)

(** The scenario table after [insert(7, 70)]. *)
Lemma scenario_insert :
  insert 7 70 scenario_table =
    Ok (Hashtable [[]; [(1, 10); (5, 50)]; []; [(3, 30); (7, 70)]] 4 4,
        Iterator 3 (Node 3 1)).
Proof. reflexivity. Defined.

Lemma hashtable_init_empty_witness :
  ∃ t : hashtable N N,
    hashtable_init 4 = Ok t ∧
    well_formed t ∧ bucket_count t = 4 ∧ count t = 0 ∧
    all_empty (table_ t) ∧
    ∀ key, contains_key key t = Ok false ∧ find key t = end_ t ∧
           at_key key t = Undefined.
Proof. apply (hashtable_init_empty 4); [reflexivity|by vm_compute]. Defined.

Lemma contains_key_find_witness :
  ∃ (it fin : iterator),
    find 5 scenario_table = Ok it ∧ end_ scenario_table = Ok fin ∧
    contains_key 5 scenario_table = Ok (iterator_ne it fin).
Proof.
  apply (contains_key_find 5 scenario_table). exact scenario_table_well_formed.
Defined.

Lemma find_first_match_witness :
  index_ (Iterator 1 (Node 1 1)) = h_ 5 mod bucket_count scenario_table ∧
  equal_to_ 5 (5, 50).1 = true ∧
  ∃ (b : bucket_type N N) (j : nat),
    table_ scenario_table !! N.to_nat (index_ (Iterator 1 (Node 1 1))) = Some b ∧
    entry_ (Iterator 1 (Node 1 1)) = Node (index_ (Iterator 1 (Node 1 1))) j ∧
    b !! j = Some (5, 50) ∧
    ∀ (j' : nat) (e' : hash_entry_type N N),
      (j' < j)%nat → b !! j' = Some e' → equal_to_ 5 e'.1 = false.
Proof.
  apply (find_first_match 5 scenario_table (Iterator 1 (Node 1 1)) (5, 50)).
  - reflexivity.
  - reflexivity.
Defined.

Lemma at_key_contains_witness :
  ∃ c : bool,
    contains_key 5 scenario_table = Ok c ∧
    if c then
      ∃ (b : bucket_type N N) (e : hash_entry_type N N),
        table_ scenario_table !! N.to_nat (h_ 5 mod bucket_count scenario_table)
          = Some b ∧
        e ∈ b ∧ equal_to_ 5 e.1 = true ∧
        at_key 5 scenario_table = Ok e.2 ∧
        subscript_key 5 scenario_table = Ok e.2
    else at_key 5 scenario_table = Undefined ∧
         subscript_key 5 scenario_table = Undefined.
Proof.
  apply (at_key_contains 5 scenario_table). exact scenario_table_well_formed.
Defined.

Lemma at_index_bounds_witness :
  (∀ index, index < bucket_count scenario_table →
     ∃ b, table_ scenario_table !! N.to_nat index = Some b ∧
          at_ scenario_table index = Ok b ∧
          subscript_index scenario_table index = Ok b) ∧
  (∀ index, bucket_count scenario_table ≤ index →
     at_ scenario_table index = OutOfRange ∧
     subscript_index scenario_table index = OutOfRange) ∧
  (∀ key, ∃ b,
     at_ scenario_table (h_ key mod bucket_count scenario_table) = Ok b ∧
     contains_key key scenario_table =
       Ok (existsb (λ e, equal_to_ key e.1) b)).
Proof. apply at_index_bounds. exact scenario_table_well_formed. Defined.

Lemma insert_keeps_found_entries_witness :
  find 5 (Hashtable [[]; [(1, 10); (5, 50)]; []; [(3, 30); (7, 70)]] 4 4) =
    Ok (Iterator 1 (Node 1 1)) ∧
  deref (Hashtable [[]; [(1, 10); (5, 50)]; []; [(3, 30); (7, 70)]] 4 4)
    (Iterator 1 (Node 1 1)) = Ok (5, 50).
Proof.
  apply (insert_keeps_found_entries 7 70 5 scenario_table _
           (Iterator 3 (Node 3 1)) (Iterator 1 (Node 1 1)) (5, 50)).
  - reflexivity.
  - reflexivity.
  - exact scenario_insert.
Defined.

Lemma insert_contains_other_witness :
  contains_key 5 (Hashtable [[]; [(1, 10); (5, 50)]; []; [(3, 30); (7, 70)]] 4 4)
    = contains_key 5 scenario_table.
Proof.
  apply (insert_contains_other 7 70 5 scenario_table _ (Iterator 3 (Node 3 1))).
  - reflexivity.
  - exact scenario_insert.
Defined.

Lemma reachable_unique_keys_witness :
  unique_keys (Hashtable [[]; [(1, 10)]; []; [(3, 30)]] 4 2 : hashtable N N).
Proof.
  apply (reachable_unique_keys 4 (scenario_operations ++ [Erase 5])
           (Hashtable [[]; []; []; []] 4 0)).
  - reflexivity.
  - reflexivity.
Defined.

Lemma reachable_well_formed_witness :
  ∃ t, run_memory scenario_operations (Hashtable [[]; []; []; []] 4 0) = Some t ∧
       well_formed t ∧ bucket_count t = 4.
Proof.
  apply (reachable_well_formed 4 scenario_operations).
  - reflexivity.
  - reflexivity.
Defined.

Lemma reachable_unique_across_buckets_witness :
  equal_to_ (1, 10).1 (3, 30).1 = false.
Proof.
  apply (reachable_unique_across_buckets
           (λ a b H, proj1 (N.eqb_eq a b) H)
           4 scenario_operations (Hashtable [[]; []; []; []] 4 0)
           scenario_table 1 3 [(1, 10); (5, 50)] [(3, 30)] (1, 10) (3, 30)).
  - reflexivity.
  - reflexivity.
  - reflexivity.
  - reflexivity.
  - reflexivity.
  - by constructor.
  - by constructor.
  - discriminate.
Defined.

Lemma insert_then_find_witness :
  find 7 (Hashtable [[]; [(1, 10); (5, 50)]; []; [(3, 30); (7, 70)]] 4 4) =
    Ok (Iterator 3 (Node 3 1)) ∧
  ∃ e : hash_entry_type N N,
    deref (Hashtable [[]; [(1, 10); (5, 50)]; []; [(3, 30); (7, 70)]] 4 4)
      (Iterator 3 (Node 3 1)) = Ok e ∧
    equal_to_ 7 e.1 = true ∧
    at_key 7 (Hashtable [[]; [(1, 10); (5, 50)]; []; [(3, 30); (7, 70)]] 4 4)
      = Ok e.2 ∧
    (contains_key 7 scenario_table = Ok false → e = (7, 70)) ∧
    (contains_key 7 scenario_table = Ok true →
       Hashtable [[]; [(1, 10); (5, 50)]; []; [(3, 30); (7, 70)]] 4 4
         = scenario_table ∧
       at_key 7 scenario_table = Ok e.2).
Proof.
  apply (insert_then_find N.eqb_sym N.eqb_refl 7 70 scenario_table).
  exact scenario_insert.
Defined.

Lemma insert_twice_witness :
  insert 7 71 (Hashtable [[]; [(1, 10); (5, 50)]; []; [(3, 30); (7, 70)]] 4 4) =
    Ok (Hashtable [[]; [(1, 10); (5, 50)]; []; [(3, 30); (7, 70)]] 4 4,
        Iterator 3 (Node 3 1)).
Proof.
  apply (insert_twice N.eqb_refl 7 70 71 scenario_table).
  exact scenario_insert.
Defined.

Lemma operator_inc_past_last_witness :
  ∃ advanced returned : iterator,
    deref scenario_table (Iterator 3 (Node 3 0)) = Ok (3, 30) ∧
    operator_inc scenario_table (Iterator 3 (Node 3 0))
      = Ok (advanced, returned) ∧
    operator_inc_post scenario_table (Iterator 3 (Node 3 0))
      = Ok (advanced, Iterator 3 (Node 3 0)) ∧
    end_ scenario_table = Ok returned ∧
    iterator_eq advanced returned = true ∧
    index_ advanced = bucket_count scenario_table ∧
    deref scenario_table advanced = Undefined ∧
    deref scenario_table returned = Undefined ∧
    operator_inc scenario_table advanced = OutOfRange ∧
    operator_inc scenario_table returned = Undefined.
Proof.
  apply (operator_inc_past_last scenario_table
           [[]; [(1, 10); (5, 50)]; []] [] (3, 30) []).
  - exact scenario_table_well_formed.
  - reflexivity.
  - constructor.
Defined.

Lemma begin_first_entry_witness :
  ∃ it fin : iterator,
    begin scenario_table = Ok it ∧ deref scenario_table it = Ok (1, 10) ∧
    end_ scenario_table = Ok fin ∧ iterator_ne it fin = true.
Proof.
  apply (begin_first_entry scenario_table (1, 10) [(5, 50); (3, 30)]).
  - exact scenario_table_well_formed.
  - reflexivity.
Defined.

Lemma operator_assign_copies_witness :
  operator_assign empty_table scenario_table false = Ok scenario_table ∧
  operator_assign empty_table empty_table true = Ok empty_table.
Proof.
  apply (operator_assign_copies empty_table scenario_table).
  exact scenario_table_well_formed.
Defined.

Lemma operator_inc_from_entry_witness :
  ∃ advanced returned : iterator,
    operator_inc scenario_table (Iterator 1 (Node 1 1))
      = Ok (advanced, returned) ∧
    ((at_entry scenario_table advanced ∧ returned = advanced) ∨
     (end_ scenario_table = Ok returned ∧
      iterator_eq advanced returned = true)).
Proof.
  apply (operator_inc_from_entry scenario_table (Iterator 1 (Node 1 1))).
  - exact scenario_table_well_formed.
  - exists [(1, 10); (5, 50)], 1%nat. split_and!; [reflexivity..|]. simpl. lia.
Defined.

